(** * Box-Cox transformation (gluonts/distribution/box_cox_tranform.py)

    A shallow embedding of [BoxCoxTranform] ([f], [f_inv],
    [log_abs_det_jac]) and of [BoxCoxTransformOutput.domain_map], over
    exact real arithmetic.

    Numbers.  A tensor element is a real number or one of the three
    special values of the floating-point format ([+inf], [-inf], [nan]).
    Finite arithmetic is exact: there is no rounding and no overflow, and
    there is one zero, which behaves as [+0.0].  The special values follow
    IEEE 754 / C99 Annex F, which is what the numeric backend (MXNet)
    computes with: division by zero and the power of zero give infinities,
    undefined operations give [nan], and nothing raises.

    Tensors.  A tensor is the list of its elements.  Arithmetic between two
    tensors broadcasts as the backend's NDArray operators do, restricted to
    one axis: equal extents combine elementwise, an extent of one is
    repeated, anything else is a shape error ([None]).

    Layout.  The backend and the source come first, then the contracts of
    the specification on one element, then the lemmas that relate the two,
    then the properties of the transformation. *)

From Stdlib Require Import Reals Lra.
From stdpp Require Import base option list.

Local Open Scope R_scope.

(** ** Tensor elements *)

Inductive num : Type :=
  | Fin (r : R)
  | PInf
  | NInf
  | NaN.

Definition is_finite (a : num) : Prop := exists r, a = Fin r.

(** The order of the extended real line; [nan] is not comparable. *)
Definition num_le (a b : num) : Prop :=
  match a, b with
  | NaN, _ | _, NaN => False
  | NInf, _ => True
  | _, PInf => True
  | Fin x, Fin y => x <= y
  | _, _ => False
  end.

Definition num_lt (a b : num) : Prop :=
  match a, b with
  | NaN, _ | _, NaN => False
  | NInf, NInf => False
  | PInf, PInf => False
  | NInf, _ => True
  | _, PInf => True
  | Fin x, Fin y => x < y
  | _, _ => False
  end.

(** [is_int y] is [Some n] when the real [y] is the integer [n]. *)
Definition is_int (y : R) : option Z :=
  let n := Int_part y in
  if Req_dec_T (IZR n) y then Some n else None.

(** The elementwise kernels of the numeric backend. *)
Module Num.

Definition add (a b : num) : num :=
  match a, b with
  | Fin x, Fin y => Fin (x + y)
  | NaN, _ | _, NaN => NaN
  | PInf, NInf | NInf, PInf => NaN
  | PInf, _ | _, PInf => PInf
  | NInf, _ | _, NInf => NInf
  end.

Definition sub (a b : num) : num :=
  match a, b with
  | Fin x, Fin y => Fin (x - y)
  | NaN, _ | _, NaN => NaN
  | PInf, PInf | NInf, NInf => NaN
  | PInf, _ | _, NInf => PInf
  | NInf, _ | _, PInf => NInf
  end.

(** The infinity with the sign of [x], [nan] at zero. *)
Definition signed_inf (x : R) : num :=
  if Rlt_dec 0 x then PInf else if Rlt_dec x 0 then NInf else NaN.

Definition flip (a : num) : num :=
  match a with
  | PInf => NInf
  | NInf => PInf
  | Fin x => Fin (- x)
  | NaN => NaN
  end.

Definition mul (a b : num) : num :=
  match a, b with
  | Fin x, Fin y => Fin (x * y)
  | NaN, _ | _, NaN => NaN
  | Fin x, PInf | PInf, Fin x => signed_inf x
  | Fin x, NInf | NInf, Fin x => flip (signed_inf x)
  | PInf, PInf | NInf, NInf => PInf
  | PInf, NInf | NInf, PInf => NaN
  end.

(** Division; a zero divisor is [+0.0]. *)
Definition div (a b : num) : num :=
  match a, b with
  | Fin x, Fin y => if Req_dec_T y 0 then signed_inf x else Fin (x / y)
  | NaN, _ | _, NaN => NaN
  | Fin _, _ => Fin 0
  | PInf, Fin y => if Rlt_dec y 0 then NInf else PInf
  | NInf, Fin y => if Rlt_dec y 0 then PInf else NInf
  | _, _ => NaN
  end.

Definition abs (a : num) : num :=
  match a with
  | Fin x => Fin (Rabs x)
  | PInf | NInf => PInf
  | NaN => NaN
  end.

Definition log (a : num) : num :=
  match a with
  | Fin x => if Rlt_dec 0 x then Fin (ln x)
             else if Req_dec_T x 0 then NInf else NaN
  | PInf => PInf
  | NInf | NaN => NaN
  end.

Definition exp (a : num) : num :=
  match a with
  | Fin x => Fin (Rtrigo_def.exp x)
  | PInf => PInf
  | NInf => Fin 0
  | NaN => NaN
  end.

(** [relu x = max(x, 0)]; [nan] stays [nan]. *)
Definition relu (a : num) : num :=
  match a with
  | Fin x => if Rlt_dec 0 x then Fin x else Fin 0
  | PInf => PInf
  | NInf => Fin 0
  | NaN => NaN
  end.

(** Comparison with a host scalar: [1.0] where it holds, else [0.0];
    a comparison with [nan] does not hold. *)
Definition ge (a : num) (c : R) : num :=
  match a with
  | Fin x => if Rle_dec c x then Fin 1 else Fin 0
  | PInf => Fin 1
  | NInf | NaN => Fin 0
  end.

(** What a select takes for true: any element that is not zero. *)
Definition truthy (c : num) : bool :=
  match c with
  | Fin x => if Req_dec_T x 0 then false else true
  | _ => true
  end.

(** [pow(x, y)] at finite arguments. *)
Definition pow_fin (x y : R) : num :=
  if Req_dec_T y 0 then Fin 1
  else if Rlt_dec 0 x then Fin (Rpower x y)
  else if Req_dec_T x 0 then (if Rlt_dec 0 y then Fin 0 else PInf)
  else match is_int y with
       | Some n => Fin (if Z.even n then Rpower (- x) y
                        else - Rpower (- x) y)
       | None => NaN
       end.

Definition odd_int (y : R) : bool :=
  match is_int y with
  | Some n => Z.odd n
  | None => false
  end.

Definition pow (a b : num) : num :=
  match b with
  | Fin y =>
      match a with
      | Fin x => pow_fin x y
      | PInf => if Req_dec_T y 0 then Fin 1
                else if Rlt_dec 0 y then PInf else Fin 0
      | NInf => if Req_dec_T y 0 then Fin 1
                else if Rlt_dec 0 y then (if odd_int y then NInf else PInf)
                else Fin 0
      | NaN => if Req_dec_T y 0 then Fin 1 else NaN
      end
  | PInf =>
      match a with
      | Fin x => if Rlt_dec (Rabs x) 1 then Fin 0
                 else if Req_dec_T (Rabs x) 1 then Fin 1 else PInf
      | PInf | NInf => PInf
      | NaN => NaN
      end
  | NInf =>
      match a with
      | Fin x => if Rlt_dec (Rabs x) 1 then PInf
                 else if Req_dec_T (Rabs x) 1 then Fin 1 else Fin 0
      | PInf | NInf => Fin 0
      | NaN => NaN
      end
  | NaN =>
      match a with
      | Fin x => if Req_dec_T x 1 then Fin 1 else NaN
      | _ => NaN
      end
  end.

(** [log(1 + exp(x))]. *)
Definition softrelu (a : num) : num :=
  match a with
  | Fin x => Fin (ln (1 + Rtrigo_def.exp x))
  | PInf => PInf
  | NInf => Fin 0
  | NaN => NaN
  end.

End Num.

(** ** Tensors and the backend [F] *)

Abbreviation tensor := (list num).

(** A shape error is the only failure of the backend: an operator returns
    [None] for it, and a computation is sequenced with the bind of the
    option monad, [x ← e; k]. *)

Module F.

(** A binary operator between tensors, with broadcasting. *)
Definition broadcast (op : num -> num -> num) (a b : tensor)
  : option tensor :=
  match a, b with
  | [x], _ => Some (fmap (op x) b)
  | _, [y] => Some (fmap (fun x => op x y) a)
  | _, _ => if (length a =? length b)%nat
            then Some (zip_with op a b) else None
  end.

Definition add := broadcast Num.add.
Definition sub := broadcast Num.sub.
Definition mul := broadcast Num.mul.
Definition div := broadcast Num.div.
Definition power := broadcast Num.pow.

(** Operators between a tensor and a host scalar. *)
Definition add_scalar (a : tensor) (c : R) : tensor :=
  fmap (fun x => Num.add x (Fin c)) a.
Definition sub_scalar (a : tensor) (c : R) : tensor :=
  fmap (fun x => Num.sub x (Fin c)) a.
Definition mul_scalar (a : tensor) (c : R) : tensor :=
  fmap (fun x => Num.mul x (Fin c)) a.
Definition rdiv_scalar (c : R) (a : tensor) : tensor :=
  fmap (fun x => Num.div (Fin c) x) a.
Definition ge_scalar (a : tensor) (c : R) : tensor :=
  fmap (fun x => Num.ge x c) a.

(** Unary minus is multiplication by [-1.0]. *)
Definition neg (a : tensor) : tensor := mul_scalar a (-1).

Definition abs (a : tensor) : tensor := fmap Num.abs a.
Definition log (a : tensor) : tensor := fmap Num.log a.
Definition exp (a : tensor) : tensor := fmap Num.exp a.
Definition relu (a : tensor) : tensor := fmap Num.relu a.
Definition ones_like (a : tensor) : tensor := fmap (fun _ => Fin 1) a.

(** [lhs.broadcast_like(rhs)]: [lhs] repeated up to the shape of [rhs]. *)
Definition broadcast_like (lhs rhs : tensor) : option tensor :=
  if (length lhs =? length rhs)%nat then Some lhs
  else match lhs with
       | [x] => Some (replicate (length rhs) x)
       | _ => None
       end.

Fixpoint select (c x y : tensor) : tensor :=
  match c, x, y with
  | ci :: c', xi :: x', yi :: y' =>
      (if Num.truthy ci then xi else yi) :: select c' x' y'
  | _, _, _ => []
  end.

(** [where(condition, x, y)]: the three tensors have one shape; each
    output element is taken from [x] where the condition is not zero and
    from [y] elsewhere. *)
Definition where_ (condition x y : tensor) : option tensor :=
  if ((length condition =? length x) && (length x =? length y))%nat
  then Some (select condition x y) else None.

(** [squeeze(axis=-1)] drops a trailing axis of extent one; the elements
    and their order stay, so the list of elements is unchanged. *)
Definition squeeze (a : tensor) : tensor := a.

End F.

(** Modelled from the spec: [softplus] of [gluonts.distribution.distribution]
    is not among the sources; the glossary gives it as [log(1+exp(x))],
    applied elementwise. *)
Definition softplus (x : tensor) : tensor := fmap Num.softrelu x.

(** ** The transformation ([class BoxCoxTranform])

    An instance holds the two parameter tensors and the tolerance; the
    constructor takes any float for [tol_lambda_1] and does not validate
    it. *)

Record BoxCoxTranform : Type := {
  lambda_1 : tensor;
  lambda_2 : tensor;
  tol_lambda_1 : R
}.

(** The default of the constructor, [tol_lambda_1 = 1e-2]. *)
Definition default_tol : R := 1 / 100.

(** [BoxCoxTranform.f]: forward transformation of observations [z].  Both
    arguments of the select are computed, as in the source. *)
Definition f (self : BoxCoxTranform) (z : tensor) : option tensor :=
  condition ← F.broadcast_like
                 (F.ge_scalar (F.abs (lambda_1 self)) (tol_lambda_1 self)) z;
  s ← F.add z (lambda_2 self);
  p ← F.power s (lambda_1 self);
  x ← F.div (F.sub_scalar p 1) (lambda_1 self);
  s' ← F.add z (lambda_2 self);
  F.where_ condition x (F.log s').

(** [BoxCoxTranform.f_inv]: inverse of the Box-Cox transform; [y * lambda_1
    + 1.0] is truncated at zero. *)
Definition f_inv (self : BoxCoxTranform) (y : tensor) : option tensor :=
  t ← F.mul y (lambda_1 self);
  let base := F.relu (F.add_scalar t 1) in
  let condition := F.ge_scalar (F.abs (lambda_1 self)) (tol_lambda_1 self) in
  p ← F.power base (F.rdiv_scalar 1 (lambda_1 self));
  x ← F.sub p (lambda_2 self);
  e ← F.sub (F.exp y) (lambda_2 self);
  F.where_ condition x e.

(** [BoxCoxTranform.log_abs_det_jac]: logarithm of the absolute value of
    the Jacobian determinant; the second argument of the source is not
    used. *)
Definition log_abs_det_jac (self : BoxCoxTranform) (z : tensor)
  : option tensor :=
  let condition := F.ge_scalar (F.abs (lambda_1 self)) (tol_lambda_1 self) in
  s ← F.add z (lambda_2 self);
  x ← F.mul (F.log s) (F.sub_scalar (lambda_1 self) 1);
  s' ← F.add z (lambda_2 self);
  F.where_ condition x (F.neg (F.log s')).

(** ** The parameter output ([class BoxCoxTransformOutput]) *)

Record BoxCoxTransformOutput : Type := {
  lb_obs : R;
  fix_lambda_2 : bool
}.

(** [BoxCoxTransformOutput.domain_map], on the two raw tensors. *)
Definition domain_map (self : BoxCoxTransformOutput) (args : tensor * tensor)
  : option (tensor * tensor) :=
  let '(lambda_1, lambda_2) := args in
  lambda_2' ←
    (if fix_lambda_2 self
     then Some (F.mul_scalar (F.ones_like lambda_2) (lb_obs self))
     else F.sub (softplus lambda_2)
                (F.mul_scalar (F.ones_like lambda_2) (lb_obs self)));
  Some (F.squeeze lambda_1, F.squeeze lambda_2').

(** ** The contracts, element by element

    These follow the words of the specification; the theorems below relate
    them to the tensor code above. *)

(** The branch test [|lambda_1| >= tol_lambda_1] on one element. *)
Definition abs_ge (l1 : num) (tol : R) : bool :=
  match l1 with
  | Fin a => if Rle_dec tol (Rabs a) then true else false
  | PInf | NInf => true
  | NaN => false
  end.

Definition forward_elem (tol : R) (l1 l2 z : num) : num :=
  if abs_ge l1 tol
  then Num.div (Num.sub (Num.pow (Num.add z l2) l1) (Fin 1)) l1
  else Num.log (Num.add z l2).

Definition inverse_elem (tol : R) (l1 l2 y : num) : num :=
  let base := Num.relu (Num.add (Num.mul y l1) (Fin 1)) in
  if abs_ge l1 tol
  then Num.sub (Num.pow base (Num.div (Fin 1) l1)) l2
  else Num.sub (Num.exp y) l2.

Definition jacobian_elem (tol : R) (l1 l2 z : num) : num :=
  if abs_ge l1 tol
  then Num.mul (Num.log (Num.add z l2)) (Num.sub l1 (Fin 1))
  else Num.mul (Num.log (Num.add z l2)) (Fin (-1)).

(** [t] can be broadcast to the shape of [z]. *)
Definition broadcastable (t z : tensor) : Prop :=
  length t = length z \/ length t = 1%nat.

(** Element [i] of [t] after broadcasting. *)
Definition bget (t : tensor) (i : nat) : option num :=
  match t with
  | [x] => Some x
  | _ => t !! i
  end.

(** A tensor all of whose elements are real numbers. *)
Definition reals (l : list R) : tensor := Fin <$> l.

(** The real number held by a finite element. *)
Definition to_real (a : num) : R :=
  match a with
  | Fin r => r
  | _ => 0
  end.

(** [g], a map on elements, is real-valued around [z0] and has derivative
    [d] there. *)
Definition derivative_at (g : num -> num) (z0 d : R) : Prop :=
  exists gr : R -> R,
    (exists delta, 0 < delta /\
       forall z, Rabs (z - z0) < delta -> g (Fin z) = Fin (gr z)) /\
    derivable_pt_lim gr z0 d.

(** The base of the power in the inverse map, [relu(y * lambda_1 + 1)], on
    real elements. *)
Definition clamp (y a : R) : R := Rmax (y * a + 1) 0.

(** ** Shapes

    The extent of the result of each backend operator, from the extents of
    its arguments; [None] is the shape error.  The three functions below
    run the source on extents alone. *)
Definition bshape (m n : nat) : option nat :=
  if (m =? 1)%nat then Some n
  else if (n =? 1)%nat then Some m
  else if (m =? n)%nat then Some m else None.

Definition like_shape (m n : nat) : option nat :=
  if (m =? n)%nat then Some m
  else if (m =? 1)%nat then Some n else None.

Definition where_shape (c x y : nat) : option nat :=
  if ((c =? x) && (x =? y))%nat then Some c else None.

(** Extents: [m] of [lambda_1], [k] of [lambda_2], [n] of the input. *)
Definition f_shape (m k n : nat) : option nat :=
  c ← like_shape m n;
  s ← bshape n k;
  p ← bshape s m;
  x ← bshape p m;
  s' ← bshape n k;
  where_shape c x s'.

Definition f_inv_shape (m k n : nat) : option nat :=
  t ← bshape n m;
  p ← bshape t m;
  x ← bshape p k;
  e ← bshape n k;
  where_shape m x e.

Definition log_abs_det_jac_shape (m k n : nat) : option nat :=
  s ← bshape n k;
  x ← bshape s m;
  s' ← bshape n k;
  where_shape m x s'.

(** The value that [f] gives back for [f_inv(y)] on the power branch: [y]
    cut at the end of the range of [f], which is [-1/lambda_1]. *)
Definition range_clamp (a y : R) : R :=
  if Rlt_dec 0 a then Rmax y (- / a) else Rmin y (- / a).

(** A contract on elements, applied along three tensors of one shape. *)
Definition elementwise (g : num -> num -> num -> num) (l1 l2 z : tensor)
  : tensor :=
  zip_with (fun p zi => g p.1 p.2 zi) (zip l1 l2) z.

(** Decides the comparisons between real numbers that a computation on
    concrete elements leaves open. *)
Ltac real_cases :=
  repeat match goal with
    | |- context [Rle_dec ?x ?y] =>
        destruct (Rle_dec x y); try (exfalso; lra)
    | |- context [Rlt_dec ?x ?y] =>
        destruct (Rlt_dec x y); try (exfalso; lra)
    | |- context [Req_dec_T ?x ?y] =>
        destruct (Req_dec_T x y); try (exfalso; lra)
    end.

(** ** Shapes and lookups of the backend operators *)

Section Backend.

Implicit Types (a b c t : tensor) (i n : nat).

Lemma bget_lookup t i : (i < length t)%nat -> bget t i = t !! i.
Proof.
  destruct t as [|x [|x' t']]; simpl; intros Hi; try reflexivity.
  assert (i = 0%nat) as -> by lia. reflexivity.
Qed.

(** Every position in range has its element after broadcasting. *)
Lemma bget_is_Some t n i :
  length t = n \/ length t = 1%nat -> (i < n)%nat -> is_Some (bget t i).
Proof.
  intros [Hn|H1] Hi.
  - rewrite bget_lookup by lia. apply lookup_lt_is_Some. lia.
  - destruct t as [|x [|? ?]]; simpl in H1; try discriminate. simpl. eauto.
Qed.

Lemma bget_map (g : num -> num) t i : bget (fmap g t) i = g <$> bget t i.
Proof.
  destruct t as [|x [|x' t']]; try reflexivity.
  change (bget (g <$> x :: x' :: t') i) with ((g <$> x :: x' :: t') !! i).
  change (bget (x :: x' :: t') i) with ((x :: x' :: t') !! i).
  apply list_lookup_fmap.
Qed.

(** A broadcasting operator succeeds on compatible shapes, and computes
    element by element. *)
Lemma broadcast_spec (op : num -> num -> num) a b n :
  length a = n \/ length a = 1%nat ->
  length b = n \/ length b = 1%nat ->
  length a = n \/ length b = n ->
  exists out, F.broadcast op a b = Some out /\ length out = n /\
    forall i x y, (i < n)%nat -> bget a i = Some x -> bget b i = Some y ->
      out !! i = Some (op x y).
Proof.
  intros Ha Hb Hab. unfold F.broadcast.
  destruct (decide (length a = 1%nat)) as [Ea|Ea].
  { destruct a as [|x [|? ?]]; simpl in Ea; try discriminate.
    assert (length b = n) as Hn.
    { destruct Hab as [H|H]; [|exact H]. simpl in H.
      destruct Hb as [H'|H']; lia. }
    exists (fmap (op x) b). split; [reflexivity|]. split.
    - rewrite length_fmap. exact Hn.
    - intros i x0 y Hi Hx Hy. simpl in Hx. injection Hx as <-.
      rewrite bget_lookup in Hy by lia.
      rewrite list_lookup_fmap, Hy. reflexivity. }
  assert (length a = n) as Hn by (destruct Ha; [assumption|contradiction]).
  destruct (decide (length b = 1%nat)) as [Eb|Eb].
  { destruct b as [|y [|? ?]]; simpl in Eb; try discriminate.
    exists (fmap (fun x => op x y) a). split.
    - destruct a as [|? [|? ?]]; reflexivity.
    - split; [rewrite length_fmap; exact Hn|].
      intros i x y0 Hi Hx Hy. simpl in Hy. injection Hy as <-.
      rewrite bget_lookup in Hx by lia.
      rewrite list_lookup_fmap, Hx. reflexivity. }
  assert (length b = n) as Hn' by (destruct Hb; [assumption|contradiction]).
  exists (zip_with op a b). split.
  - destruct a as [|? [|? ?]]; destruct b as [|? [|? ?]];
      simpl in *; try lia; try reflexivity.
    rewrite (proj2 (Nat.eqb_eq _ _)) by lia. reflexivity.
  - split; [rewrite length_zip_with; lia|].
    intros i x y Hi Hx Hy.
    rewrite bget_lookup in Hx by lia. rewrite bget_lookup in Hy by lia.
    rewrite lookup_zip_with, Hx. simpl. rewrite Hy. reflexivity.
Qed.

Lemma broadcast_like_spec c z :
  broadcastable c z ->
  exists out, F.broadcast_like c z = Some out /\ length out = length z /\
    forall i, (i < length z)%nat -> out !! i = bget c i.
Proof.
  intros Hc. unfold F.broadcast_like.
  destruct (Nat.eqb_spec (length c) (length z)) as [E|E].
  - exists c. repeat split; [exact E|].
    intros i Hi. rewrite bget_lookup by lia. reflexivity.
  - destruct Hc as [Hc|Hc]; [contradiction|].
    destruct c as [|x [|? ?]]; simpl in Hc; try discriminate.
    exists (replicate (length z) x). repeat split.
    + apply length_replicate.
    + intros i Hi. simpl. apply lookup_replicate_2. exact Hi.
Qed.

Lemma length_select c a b :
  length c = length a -> length a = length b ->
  length (F.select c a b) = length c.
Proof.
  revert a b. induction c as [|ci c IH]; intros [|ai a] [|bi b];
    simpl; intros H1 H2; try lia.
  rewrite IH; lia.
Qed.

Lemma lookup_select c a b i ci ai bi :
  c !! i = Some ci -> a !! i = Some ai -> b !! i = Some bi ->
  F.select c a b !! i = Some (if Num.truthy ci then ai else bi).
Proof.
  revert a b i. induction c as [|c0 c IH]; intros [|a0 a] [|b0 b] [|i];
    simpl; intros Hc Ha Hb; try discriminate.
  - simplify_eq. reflexivity.
  - apply IH; assumption.
Qed.

Lemma where_spec c a b n :
  length c = n -> length a = n -> length b = n ->
  exists out, F.where_ c a b = Some out /\ length out = n /\
    forall i ci ai bi,
      c !! i = Some ci -> a !! i = Some ai -> b !! i = Some bi ->
      out !! i = Some (if Num.truthy ci then ai else bi).
Proof.
  intros Hc Ha Hb. unfold F.where_.
  rewrite !(proj2 (Nat.eqb_eq _ _)) by lia. simpl.
  exists (F.select c a b). repeat split.
  - rewrite length_select; lia.
  - intros. apply lookup_select; assumption.
Qed.

Lemma truthy_ge_abs (l1 : num) (tol : R) :
  Num.truthy (Num.ge (Num.abs l1) tol) = abs_ge l1 tol.
Proof.
  destruct l1 as [a| | |]; simpl;
    try (destruct (Req_dec_T 1 0); [lra|reflexivity]);
    try (destruct (Req_dec_T 0 0); [reflexivity|lra]).
  destruct (Rle_dec tol (Rabs a)); simpl.
  - destruct (Req_dec_T 1 0); [lra|reflexivity].
  - destruct (Req_dec_T 0 0); [reflexivity|lra].
Qed.

End Backend.

(** ** The tensor code computes the contracts element by element *)

Section Contracts.

Variable T : BoxCoxTranform.

Lemma condition_lookup i a :
  bget (lambda_1 T) i = Some a ->
  bget (F.ge_scalar (F.abs (lambda_1 T)) (tol_lambda_1 T)) i
  = Some (Num.ge (Num.abs a) (tol_lambda_1 T)).
Proof.
  intros Ha. unfold F.ge_scalar, F.abs.
  rewrite !bget_map, Ha. reflexivity.
Qed.

Lemma forward_lookup (z : tensor) :
  broadcastable (lambda_1 T) z -> broadcastable (lambda_2 T) z ->
  exists out, f T z = Some out /\ length out = length z /\
    forall i zi a b,
      z !! i = Some zi ->
      bget (lambda_1 T) i = Some a -> bget (lambda_2 T) i = Some b ->
      out !! i = Some (forward_elem (tol_lambda_1 T) a b zi).
Proof.
  intros B1 B2. unfold f.
  set (n := length z).
  destruct (broadcast_like_spec
              (F.ge_scalar (F.abs (lambda_1 T)) (tol_lambda_1 T)) z)
    as (c & -> & Lc & Hc).
  { unfold broadcastable, F.ge_scalar, F.abs. rewrite !length_fmap.
    exact B1. }
  destruct (broadcast_spec Num.add z (lambda_2 T) n) as (s & Hs & Ls & Es);
    [left; reflexivity | exact B2 | left; reflexivity |].
  unfold F.add. rewrite Hs. simpl.
  destruct (broadcast_spec Num.pow s (lambda_1 T) n) as (p & Hp & Lp & Ep);
    [left; exact Ls | exact B1 | left; exact Ls |].
  unfold F.power. rewrite Hp. simpl.
  destruct (broadcast_spec Num.div (F.sub_scalar p 1) (lambda_1 T) n)
    as (x & Hx & Lx & Ex);
    [left | exact B1 | left |];
    try (unfold F.sub_scalar; rewrite length_fmap; exact Lp).
  unfold F.div. rewrite Hx. simpl.
  destruct (where_spec c x (F.log s) n) as (out & Ho & Lo & Eo);
    [exact Lc | exact Lx | unfold F.log; rewrite length_fmap; exact Ls |].
  exists out. split; [exact Ho|]. split; [exact Lo|].
  intros i zi a b Hz Ha Hb.
  assert (i < n)%nat as Hi by (eapply lookup_lt_Some; exact Hz).
  assert (s !! i = Some (Num.add zi b)) as Hsi.
  { apply Es; [exact Hi | rewrite bget_lookup by exact Hi; exact Hz
              | exact Hb]. }
  assert (p !! i = Some (Num.pow (Num.add zi b) a)) as Hpi.
  { apply Ep; [exact Hi | rewrite bget_lookup by lia; exact Hsi
              | exact Ha]. }
  assert (x !! i = Some (Num.div (Num.sub (Num.pow (Num.add zi b) a)
                                    (Fin 1)) a)) as Hxi.
  { apply Ex; [exact Hi | | exact Ha].
    unfold F.sub_scalar. rewrite bget_map, bget_lookup by lia.
    rewrite Hpi. reflexivity. }
  rewrite (Eo i (Num.ge (Num.abs a) (tol_lambda_1 T))
             (Num.div (Num.sub (Num.pow (Num.add zi b) a) (Fin 1)) a)
             (Num.log (Num.add zi b))).
  - rewrite truthy_ge_abs. reflexivity.
  - rewrite Hc by exact Hi. apply condition_lookup. exact Ha.
  - exact Hxi.
  - unfold F.log. rewrite list_lookup_fmap, Hsi. reflexivity.
Qed.

(** The select of [f_inv] and [log_abs_det_jac] takes the condition as it
    is: [lambda_1] has the shape of the input. *)
Lemma inverse_lookup (y : tensor) :
  length (lambda_1 T) = length y -> broadcastable (lambda_2 T) y ->
  exists out, f_inv T y = Some out /\ length out = length y /\
    forall i yi a b,
      y !! i = Some yi ->
      lambda_1 T !! i = Some a -> bget (lambda_2 T) i = Some b ->
      out !! i = Some (inverse_elem (tol_lambda_1 T) a b yi).
Proof.
  intros B1 B2. unfold f_inv.
  set (n := length y).
  destruct (broadcast_spec Num.mul y (lambda_1 T) n) as (t & Ht & Lt & Et);
    [left; reflexivity | left; exact B1 | left; reflexivity |].
  unfold F.mul. rewrite Ht. simpl.
  set (base := F.relu (F.add_scalar t 1)).
  assert (length base = n) as Lb.
  { unfold base, F.relu, F.add_scalar. rewrite !length_fmap. exact Lt. }
  destruct (broadcast_spec Num.pow base (F.rdiv_scalar 1 (lambda_1 T)) n)
    as (p & Hp & Lp & Ep);
    [left; exact Lb | left | left; exact Lb |];
    try (unfold F.rdiv_scalar; rewrite length_fmap; exact B1).
  unfold F.power. rewrite Hp. simpl.
  destruct (broadcast_spec Num.sub p (lambda_2 T) n) as (x & Hx & Lx & Ex);
    [left; exact Lp | exact B2 | left; exact Lp |].
  unfold F.sub. rewrite Hx. simpl.
  destruct (broadcast_spec Num.sub (F.exp y) (lambda_2 T) n)
    as (e & He & Le & Ee);
    [left | exact B2 | left |];
    try (unfold F.exp; rewrite length_fmap; reflexivity).
  rewrite He. simpl.
  destruct (where_spec
              (F.ge_scalar (F.abs (lambda_1 T)) (tol_lambda_1 T)) x e n)
    as (out & Ho & Lo & Eo);
    [unfold F.ge_scalar, F.abs; rewrite !length_fmap; exact B1
    | exact Lx | exact Le |].
  exists out. split; [exact Ho|]. split; [exact Lo|].
  intros i yi a b Hy Ha Hb.
  assert (i < n)%nat as Hi by (eapply lookup_lt_Some; exact Hy).
  assert (bget (lambda_1 T) i = Some a) as Ha'.
  { rewrite bget_lookup by (rewrite B1; exact Hi). exact Ha. }
  assert (t !! i = Some (Num.mul yi a)) as Hti.
  { apply Et; [exact Hi | rewrite bget_lookup by exact Hi; exact Hy
              | exact Ha']. }
  assert (base !! i
          = Some (Num.relu (Num.add (Num.mul yi a) (Fin 1)))) as Hbi.
  { unfold base, F.relu, F.add_scalar.
    rewrite !list_lookup_fmap, Hti. reflexivity. }
  assert (p !! i = Some (Num.pow
                           (Num.relu (Num.add (Num.mul yi a) (Fin 1)))
                           (Num.div (Fin 1) a))) as Hpi.
  { apply Ep; [exact Hi | rewrite bget_lookup by lia; exact Hbi |].
    unfold F.rdiv_scalar. rewrite bget_map, Ha'. reflexivity. }
  rewrite (Eo i (Num.ge (Num.abs a) (tol_lambda_1 T))
             (Num.sub (Num.pow
                         (Num.relu (Num.add (Num.mul yi a) (Fin 1)))
                         (Num.div (Fin 1) a)) b)
             (Num.sub (Num.exp yi) b)).
  - rewrite truthy_ge_abs. reflexivity.
  - rewrite <- bget_lookup
      by (unfold F.ge_scalar, F.abs; rewrite !length_fmap, B1; exact Hi).
    apply condition_lookup. exact Ha'.
  - apply Ex; [exact Hi | rewrite bget_lookup by lia; exact Hpi | exact Hb].
  - apply Ee; [exact Hi | | exact Hb].
    unfold F.exp. rewrite bget_map, bget_lookup by exact Hi.
    rewrite Hy. reflexivity.
Qed.

Lemma jacobian_lookup (z : tensor) :
  length (lambda_1 T) = length z -> broadcastable (lambda_2 T) z ->
  exists out, log_abs_det_jac T z = Some out /\ length out = length z /\
    forall i zi a b,
      z !! i = Some zi ->
      lambda_1 T !! i = Some a -> bget (lambda_2 T) i = Some b ->
      out !! i = Some (jacobian_elem (tol_lambda_1 T) a b zi).
Proof.
  intros B1 B2. unfold log_abs_det_jac.
  set (n := length z).
  destruct (broadcast_spec Num.add z (lambda_2 T) n) as (s & Hs & Ls & Es);
    [left; reflexivity | exact B2 | left; reflexivity |].
  unfold F.add. rewrite Hs. simpl.
  destruct (broadcast_spec Num.mul (F.log s) (F.sub_scalar (lambda_1 T) 1) n)
    as (x & Hx & Lx & Ex);
    [left | left | left |];
    try (unfold F.log; rewrite length_fmap; exact Ls);
    try (unfold F.sub_scalar; rewrite length_fmap; exact B1).
  unfold F.mul. rewrite Hx. simpl.
  destruct (where_spec
              (F.ge_scalar (F.abs (lambda_1 T)) (tol_lambda_1 T))
              x (F.neg (F.log s)) n)
    as (out & Ho & Lo & Eo);
    [unfold F.ge_scalar, F.abs; rewrite !length_fmap; exact B1
    | exact Lx
    | unfold F.neg, F.mul_scalar, F.log; rewrite !length_fmap; exact Ls |].
  exists out. split; [exact Ho|]. split; [exact Lo|].
  intros i zi a b Hz Ha Hb.
  assert (i < n)%nat as Hi by (eapply lookup_lt_Some; exact Hz).
  assert (bget (lambda_1 T) i = Some a) as Ha'.
  { rewrite bget_lookup by (rewrite B1; exact Hi). exact Ha. }
  assert (s !! i = Some (Num.add zi b)) as Hsi.
  { apply Es; [exact Hi | rewrite bget_lookup by exact Hi; exact Hz
              | exact Hb]. }
  rewrite (Eo i (Num.ge (Num.abs a) (tol_lambda_1 T))
             (Num.mul (Num.log (Num.add zi b)) (Num.sub a (Fin 1)))
             (Num.mul (Num.log (Num.add zi b)) (Fin (-1)))).
  - rewrite truthy_ge_abs. reflexivity.
  - rewrite <- bget_lookup
      by (unfold F.ge_scalar, F.abs; rewrite !length_fmap, B1; exact Hi).
    apply condition_lookup. exact Ha'.
  - apply Ex; [exact Hi | |].
    + unfold F.log. rewrite bget_map, bget_lookup by lia.
      rewrite Hsi. reflexivity.
    + unfold F.sub_scalar. rewrite bget_map, Ha'. reflexivity.
  - unfold F.neg, F.mul_scalar, F.log.
    rewrite !list_lookup_fmap, Hsi. reflexivity.
Qed.

End Contracts.

(** ** Real elements *)

Section Elements.

Implicit Types (a b z y tol : R).

Lemma abs_ge_true a tol : tol <= Rabs a -> abs_ge (Fin a) tol = true.
Proof. intros H. simpl. destruct (Rle_dec tol (Rabs a)); [reflexivity|lra]. Qed.

Lemma abs_ge_false a tol : Rabs a < tol -> abs_ge (Fin a) tol = false.
Proof. intros H. simpl. destruct (Rle_dec tol (Rabs a)); [lra|reflexivity]. Qed.

Lemma abs_ge_cases a tol :
  (tol <= Rabs a /\ abs_ge (Fin a) tol = true) \/
  (Rabs a < tol /\ abs_ge (Fin a) tol = false).
Proof.
  destruct (Rle_dec tol (Rabs a)) as [H|H].
  - left. split; [exact H | apply abs_ge_true; exact H].
  - right. split; [lra | apply abs_ge_false; lra].
Qed.

Lemma log_pos z : 0 < z -> Num.log (Fin z) = Fin (ln z).
Proof. intros H. simpl. destruct (Rlt_dec 0 z); [reflexivity|lra]. Qed.

Lemma pow_pos z a : 0 < z -> Num.pow (Fin z) (Fin a) = Fin (Rpower z a).
Proof.
  intros H. simpl. unfold Num.pow_fin.
  destruct (Req_dec_T a 0) as [->|Ha].
  - rewrite Rpower_O by exact H. reflexivity.
  - destruct (Rlt_dec 0 z); [reflexivity|lra].
Qed.

Lemma pow_zero_pos a : 0 < a -> Num.pow (Fin 0) (Fin a) = Fin 0.
Proof.
  intros H. simpl. unfold Num.pow_fin.
  destruct (Req_dec_T a 0); [lra|].
  destruct (Rlt_dec 0 0); [lra|].
  destruct (Req_dec_T 0 0); [|lra].
  destruct (Rlt_dec 0 a); [reflexivity|lra].
Qed.

Lemma pow_zero_neg a : a < 0 -> Num.pow (Fin 0) (Fin a) = PInf.
Proof.
  intros H. simpl. unfold Num.pow_fin.
  destruct (Req_dec_T a 0); [lra|].
  destruct (Rlt_dec 0 0); [lra|].
  destruct (Req_dec_T 0 0); [|lra].
  destruct (Rlt_dec 0 a); [lra|reflexivity].
Qed.

Lemma div_nonzero z a : a <> 0 -> Num.div (Fin z) (Fin a) = Fin (z / a).
Proof.
  intros H. simpl. destruct (Req_dec_T a 0); [contradiction|reflexivity].
Qed.

Lemma relu_pos z : 0 < z -> Num.relu (Fin z) = Fin z.
Proof. intros H. simpl. destruct (Rlt_dec 0 z); [reflexivity|lra]. Qed.

Lemma relu_nonpos z : z <= 0 -> Num.relu (Fin z) = Fin 0.
Proof. intros H. simpl. destruct (Rlt_dec 0 z); [lra|reflexivity]. Qed.

Lemma is_int_IZR (n : Z) : is_int (IZR n) = Some n.
Proof.
  unfold is_int.
  assert (Int_part (IZR n) = n) as E.
  { symmetry. apply Int_part_spec. lra. }
  rewrite E. destruct (Req_dec_T (IZR n) (IZR n)); [reflexivity|contradiction].
Qed.

(** The forward map on the power branch, inside its domain. *)
Lemma forward_power tol a b z :
  0 < z + b -> tol <= Rabs a -> a <> 0 ->
  forward_elem tol (Fin a) (Fin b) (Fin z)
  = Fin ((Rpower (z + b) a - 1) / a).
Proof.
  intros Hz Ht Ha. unfold forward_elem. rewrite abs_ge_true by exact Ht.
  change (Num.add (Fin z) (Fin b)) with (Fin (z + b)).
  rewrite pow_pos by exact Hz.
  change (Num.sub (Fin (Rpower (z + b) a)) (Fin 1))
    with (Fin (Rpower (z + b) a - 1)).
  apply div_nonzero. exact Ha.
Qed.

Lemma forward_log tol a b z :
  0 < z + b -> Rabs a < tol ->
  forward_elem tol (Fin a) (Fin b) (Fin z) = Fin (ln (z + b)).
Proof.
  intros Hz Ht. unfold forward_elem. rewrite abs_ge_false by exact Ht.
  change (Num.add (Fin z) (Fin b)) with (Fin (z + b)).
  apply log_pos. exact Hz.
Qed.

Lemma base_clamp y a :
  Num.relu (Num.add (Num.mul (Fin y) (Fin a)) (Fin 1)) = Fin (clamp y a).
Proof.
  change (Num.add (Num.mul (Fin y) (Fin a)) (Fin 1)) with (Fin (y * a + 1)).
  unfold clamp, Rmax. simpl.
  destruct (Rlt_dec 0 (y * a + 1)); destruct (Rle_dec (y * a + 1) 0);
    try reflexivity; try lra.
Qed.

Lemma inverse_power tol a b y :
  0 < y * a + 1 -> tol <= Rabs a -> a <> 0 ->
  inverse_elem tol (Fin a) (Fin b) (Fin y)
  = Fin (Rpower (y * a + 1) (1 / a) - b).
Proof.
  intros Hy Ht Ha. unfold inverse_elem. rewrite abs_ge_true by exact Ht.
  change (Num.add (Num.mul (Fin y) (Fin a)) (Fin 1)) with (Fin (y * a + 1)).
  rewrite relu_pos by exact Hy.
  rewrite div_nonzero by exact Ha.
  rewrite pow_pos by exact Hy. reflexivity.
Qed.

Lemma inverse_log tol a b y :
  Rabs a < tol ->
  inverse_elem tol (Fin a) (Fin b) (Fin y) = Fin (exp y - b).
Proof.
  intros Ht. unfold inverse_elem. rewrite abs_ge_false by exact Ht.
  reflexivity.
Qed.

Lemma jacobian_power tol a b z :
  0 < z + b -> tol <= Rabs a ->
  jacobian_elem tol (Fin a) (Fin b) (Fin z) = Fin (ln (z + b) * (a - 1)).
Proof.
  intros Hz Ht. unfold jacobian_elem. rewrite abs_ge_true by exact Ht.
  change (Num.add (Fin z) (Fin b)) with (Fin (z + b)).
  rewrite log_pos by exact Hz. reflexivity.
Qed.

Lemma jacobian_log tol a b z :
  0 < z + b -> Rabs a < tol ->
  jacobian_elem tol (Fin a) (Fin b) (Fin z) = Fin (- ln (z + b)).
Proof.
  intros Hz Ht. unfold jacobian_elem. rewrite abs_ge_false by exact Ht.
  change (Num.add (Fin z) (Fin b)) with (Fin (z + b)).
  rewrite log_pos by exact Hz. simpl. f_equal. lra.
Qed.

End Elements.

(** ** From elements back to tensors *)

Section Lifting.

Variable T : BoxCoxTranform.

Lemma lookup_reals (l : list R) i : reals l !! i = Fin <$> l !! i.
Proof. apply list_lookup_fmap. Qed.

Lemma length_reals (l : list R) : length (reals l) = length l.
Proof. apply length_fmap. Qed.

(** Two tensors are equal when they have one shape and equal elements. *)
Lemma tensor_eq (out out' : tensor) (n : nat) (g : nat -> num -> Prop) :
  length out = n -> length out' = n ->
  (forall i, (i < n)%nat -> exists v, g i v) ->
  (forall i v, g i v -> out !! i = Some v) ->
  (forall i v, g i v -> out' !! i = Some v) ->
  out = out'.
Proof.
  intros L L' Hex H H'. apply list_eq. intros i.
  destruct (decide (i < n)%nat) as [Hi|Hi].
  - destruct (Hex i Hi) as [v Hv]. rewrite (H i v Hv), (H' i v Hv).
    reflexivity.
  - rewrite !lookup_ge_None_2 by lia. reflexivity.
Qed.

Lemma forward_eq (z out' : tensor) :
  length (lambda_1 T) = length z -> length (lambda_2 T) = length z ->
  length out' = length z ->
  (forall i zi a b,
      z !! i = Some zi ->
      lambda_1 T !! i = Some a -> lambda_2 T !! i = Some b ->
      out' !! i = Some (forward_elem (tol_lambda_1 T) a b zi)) ->
  f T z = Some out'.
Proof.
  intros L1 L2 Lo H.
  destruct (forward_lookup T z) as (out & -> & Lout & E);
    [left; exact L1 | left; exact L2 |].
  f_equal.
  apply (tensor_eq out out' (length z)
           (fun i v => exists zi a b,
                z !! i = Some zi /\
                lambda_1 T !! i = Some a /\ lambda_2 T !! i = Some b /\
                v = forward_elem (tol_lambda_1 T) a b zi)); try assumption.
  - intros i Hi.
    destruct (lookup_lt_is_Some_2 z i Hi) as [zi Hz].
    destruct (lookup_lt_is_Some_2 (lambda_1 T) i) as [a Ha]; [lia|].
    destruct (lookup_lt_is_Some_2 (lambda_2 T) i) as [b Hb]; [lia|].
    eexists. exists zi, a, b. repeat split; eassumption.
  - intros i v (zi & a & b & Hz & Ha & Hb & ->).
    assert (i < length z)%nat as Hi by (eapply lookup_lt_Some; exact Hz).
    apply E; try assumption;
      rewrite bget_lookup by lia; assumption.
  - intros i v (zi & a & b & Hz & Ha & Hb & ->). apply H; assumption.
Qed.

Lemma inverse_eq (y out' : tensor) :
  length (lambda_1 T) = length y -> length (lambda_2 T) = length y ->
  length out' = length y ->
  (forall i yi a b,
      y !! i = Some yi ->
      lambda_1 T !! i = Some a -> lambda_2 T !! i = Some b ->
      out' !! i = Some (inverse_elem (tol_lambda_1 T) a b yi)) ->
  f_inv T y = Some out'.
Proof.
  intros L1 L2 Lo H.
  destruct (inverse_lookup T y) as (out & -> & Lout & E);
    [exact L1 | left; exact L2 |].
  f_equal.
  apply (tensor_eq out out' (length y)
           (fun i v => exists yi a b,
                y !! i = Some yi /\
                lambda_1 T !! i = Some a /\ lambda_2 T !! i = Some b /\
                v = inverse_elem (tol_lambda_1 T) a b yi)); try assumption.
  - intros i Hi.
    destruct (lookup_lt_is_Some_2 y i Hi) as [yi Hy].
    destruct (lookup_lt_is_Some_2 (lambda_1 T) i) as [a Ha]; [lia|].
    destruct (lookup_lt_is_Some_2 (lambda_2 T) i) as [b Hb]; [lia|].
    eexists. exists yi, a, b. repeat split; eassumption.
  - intros i v (yi & a & b & Hy & Ha & Hb & ->).
    assert (i < length y)%nat as Hi by (eapply lookup_lt_Some; exact Hy).
    apply E; try assumption.
    rewrite bget_lookup by lia. assumption.
  - intros i v (yi & a & b & Hy & Ha & Hb & ->). apply H; assumption.
Qed.

Lemma jacobian_eq (z out' : tensor) :
  length (lambda_1 T) = length z -> length (lambda_2 T) = length z ->
  length out' = length z ->
  (forall i zi a b,
      z !! i = Some zi ->
      lambda_1 T !! i = Some a -> lambda_2 T !! i = Some b ->
      out' !! i = Some (jacobian_elem (tol_lambda_1 T) a b zi)) ->
  log_abs_det_jac T z = Some out'.
Proof.
  intros L1 L2 Lo H.
  destruct (jacobian_lookup T z) as (out & -> & Lout & E);
    [exact L1 | left; exact L2 |].
  f_equal.
  apply (tensor_eq out out' (length z)
           (fun i v => exists zi a b,
                z !! i = Some zi /\
                lambda_1 T !! i = Some a /\ lambda_2 T !! i = Some b /\
                v = jacobian_elem (tol_lambda_1 T) a b zi)); try assumption.
  - intros i Hi.
    destruct (lookup_lt_is_Some_2 z i Hi) as [zi Hz].
    destruct (lookup_lt_is_Some_2 (lambda_1 T) i) as [a Ha]; [lia|].
    destruct (lookup_lt_is_Some_2 (lambda_2 T) i) as [b Hb]; [lia|].
    eexists. exists zi, a, b. repeat split; eassumption.
  - intros i v (zi & a & b & Hz & Ha & Hb & ->).
    assert (i < length z)%nat as Hi by (eapply lookup_lt_Some; exact Hz).
    apply E; try assumption.
    rewrite bget_lookup by lia. assumption.
  - intros i v (zi & a & b & Hz & Ha & Hb & ->). apply H; assumption.
Qed.

End Lifting.

(** ** The three contracts *)

(** C2. Forward map contract: when [lambda_1] and [lambda_2] broadcast to
    the shape of [z], [f] returns a tensor of the shape of [z] whose element
    [i] is [((z + lambda_2)^lambda_1 - 1) / lambda_1] if
    [|lambda_1| >= tol_lambda_1] holds for element [i] of the broadcast
    [lambda_1], and [log(z + lambda_2)] otherwise: each element selects its
    own branch. *)
Theorem f_contract (T : BoxCoxTranform) (z : tensor) :
  broadcastable (lambda_1 T) z -> broadcastable (lambda_2 T) z ->
  exists out, f T z = Some out /\ length out = length z /\
    forall i zi l1 l2,
      z !! i = Some zi ->
      bget (lambda_1 T) i = Some l1 -> bget (lambda_2 T) i = Some l2 ->
      out !! i
      = Some (if abs_ge l1 (tol_lambda_1 T)
              then Num.div (Num.sub (Num.pow (Num.add zi l2) l1) (Fin 1)) l1
              else Num.log (Num.add zi l2)).
Proof. intros B1 B2. exact (forward_lookup T z B1 B2). Qed.

Lemma f_contract_witness :
  exists out,
    f {| lambda_1 := [Fin 1]; lambda_2 := [Fin 0];
         tol_lambda_1 := default_tol |} [Fin 2; Fin 3] = Some out /\
    length out = 2%nat /\
    forall i zi l1 l2,
      [Fin 2; Fin 3] !! i = Some zi ->
      bget [Fin 1] i = Some l1 -> bget [Fin 0] i = Some l2 ->
      out !! i
      = Some (if abs_ge l1 default_tol
              then Num.div (Num.sub (Num.pow (Num.add zi l2) l1) (Fin 1)) l1
              else Num.log (Num.add zi l2)).
Proof.
  apply (f_contract {| lambda_1 := [Fin 1]; lambda_2 := [Fin 0];
                       tol_lambda_1 := default_tol |} [Fin 2; Fin 3]).
  - right. reflexivity.
  - right. reflexivity.
Defined.

(** One call takes both branches: the first element has
    [|lambda_1| >= tol_lambda_1], the second has not. *)
Lemma f_selects_per_element :
  f {| lambda_1 := [Fin 1; Fin 0]; lambda_2 := [Fin 0; Fin 0];
       tol_lambda_1 := default_tol |} [Fin 3; Fin 1]
  = Some [Fin 2; Fin 0].
Proof.
  apply forward_eq; try reflexivity. cbn [lambda_1 lambda_2 tol_lambda_1].
  unfold default_tol.
  intros [|[|i]] zi a b Hz Ha Hb; simpl in Hz, Ha, Hb; try discriminate;
    simplify_eq; simpl; f_equal.
  - rewrite forward_power; [f_equal | lra | | lra].
    + rewrite Rpower_1 by lra. lra.
    + rewrite Rabs_pos_eq; lra.
  - rewrite forward_log; [f_equal | lra |].
    + replace (1 + 0) with 1 by lra. symmetry. apply ln_1.
    + rewrite Rabs_R0. lra.
Qed.

(** C3. Inverse map contract: with [lambda_1] of the shape of [y] and
    [lambda_2] broadcast to it, [f_inv] returns a tensor of the shape of [y]
    whose element [i] is [base^(1/lambda_1) - lambda_2], where
    [base = relu(y * lambda_1 + 1)], if [|lambda_1| >= tol_lambda_1], and
    [exp(y) - lambda_2] otherwise; the clamp is on the base of the power
    only. *)
Theorem f_inv_contract (T : BoxCoxTranform) (y : tensor) :
  length (lambda_1 T) = length y -> broadcastable (lambda_2 T) y ->
  exists out, f_inv T y = Some out /\ length out = length y /\
    forall i yi l1 l2,
      y !! i = Some yi ->
      lambda_1 T !! i = Some l1 -> bget (lambda_2 T) i = Some l2 ->
      out !! i
      = Some (let base := Num.relu (Num.add (Num.mul yi l1) (Fin 1)) in
              if abs_ge l1 (tol_lambda_1 T)
              then Num.sub (Num.pow base (Num.div (Fin 1) l1)) l2
              else Num.sub (Num.exp yi) l2).
Proof. intros B1 B2. exact (inverse_lookup T y B1 B2). Qed.

Lemma f_inv_contract_witness :
  exists out,
    f_inv {| lambda_1 := [Fin 1; Fin 0]; lambda_2 := [Fin 0];
             tol_lambda_1 := default_tol |} [Fin 2; Fin 3] = Some out /\
    length out = 2%nat /\
    forall i yi l1 l2,
      [Fin 2; Fin 3] !! i = Some yi ->
      [Fin 1; Fin 0] !! i = Some l1 -> bget [Fin 0] i = Some l2 ->
      out !! i
      = Some (let base := Num.relu (Num.add (Num.mul yi l1) (Fin 1)) in
              if abs_ge l1 default_tol
              then Num.sub (Num.pow base (Num.div (Fin 1) l1)) l2
              else Num.sub (Num.exp yi) l2).
Proof.
  apply (f_inv_contract {| lambda_1 := [Fin 1; Fin 0]; lambda_2 := [Fin 0];
                           tol_lambda_1 := default_tol |} [Fin 2; Fin 3]).
  - reflexivity.
  - right. reflexivity.
Defined.

(** ** Round trip *)

Lemma round_trip_elem (tol a b z : R) :
  0 < z + b -> tol <= Rabs a -> a <> 0 ->
  inverse_elem tol (Fin a) (Fin b) (forward_elem tol (Fin a) (Fin b) (Fin z))
  = Fin z.
Proof.
  intros Hz Ht Ha. rewrite forward_power by assumption.
  assert ((Rpower (z + b) a - 1) / a * a + 1 = Rpower (z + b) a) as E
    by (field; exact Ha).
  assert (0 < Rpower (z + b) a) as Hp by (unfold Rpower; apply exp_pos).
  rewrite inverse_power; [| rewrite E; exact Hp | exact Ht | exact Ha].
  f_equal. rewrite E, Rpower_mult.
  replace (a * (1 / a)) with 1 by (field; exact Ha).
  rewrite Rpower_1 by exact Hz. lra.
Qed.

(** C1, as amended. Round trip on the power branch: for real tensors of one
    shape with [z + lambda_2 > 0], [|lambda_1| >= tol_lambda_1] and
    [lambda_1 <> 0] at every element, [f] succeeds and [f_inv] of its result
    is [z].  ([lambda_1 <> 0] follows from [|lambda_1| >= tol_lambda_1] as
    soon as [tol_lambda_1 > 0].) *)
Theorem round_trip (tol : R) (l1s l2s zs : list R) :
  length l1s = length zs -> length l2s = length zs ->
  (forall i z a b,
      zs !! i = Some z -> l1s !! i = Some a -> l2s !! i = Some b ->
      0 < z + b /\ tol <= Rabs a /\ a <> 0) ->
  let T := {| lambda_1 := reals l1s; lambda_2 := reals l2s;
              tol_lambda_1 := tol |} in
  exists y, f T (reals zs) = Some y /\ f_inv T y = Some (reals zs).
Proof.
  intros L1 L2 H T.
  destruct (forward_lookup T (reals zs)) as (y & Hy & Ly & Ey).
  { left. simpl. rewrite !length_reals. exact L1. }
  { left. simpl. rewrite !length_reals. exact L2. }
  exists y. split; [exact Hy|].
  rewrite length_reals in Ly.
  apply inverse_eq; simpl; rewrite ?length_reals; try lia.
  intros i yi a b Hyi Ha Hb.
  rewrite lookup_reals in Ha, Hb.
  destruct (l1s !! i) as [ra|] eqn:Ea; [|discriminate].
  destruct (l2s !! i) as [rb|] eqn:Eb; [|discriminate].
  simpl in Ha, Hb. simplify_eq.
  assert (i < length zs)%nat as Hi.
  { rewrite <- L1. eapply lookup_lt_Some. exact Ea. }
  destruct (lookup_lt_is_Some_2 zs i Hi) as [rz Ez].
  destruct (H i rz ra rb Ez Ea Eb) as (Hz & Ht & Hne).
  assert (yi = forward_elem tol (Fin ra) (Fin rb) (Fin rz)) as ->.
  { assert (y !! i = Some (forward_elem tol (Fin ra) (Fin rb) (Fin rz))) as E.
    { apply Ey; simpl.
      - rewrite lookup_reals, Ez. reflexivity.
      - rewrite bget_lookup by (rewrite length_reals; lia).
        rewrite lookup_reals, Ea. reflexivity.
      - rewrite bget_lookup by (rewrite length_reals; lia).
        rewrite lookup_reals, Eb. reflexivity. }
    congruence. }
  rewrite round_trip_elem by assumption.
  rewrite lookup_reals, Ez. reflexivity.
Qed.

Lemma round_trip_witness :
  exists y,
    f {| lambda_1 := reals [2]; lambda_2 := reals [1];
         tol_lambda_1 := default_tol |} (reals [3]) = Some y /\
    f_inv {| lambda_1 := reals [2]; lambda_2 := reals [1];
             tol_lambda_1 := default_tol |} y = Some (reals [3]).
Proof.
  apply (round_trip default_tol [2] [1] [3]); try reflexivity.
  intros [|i] z a b Hz Ha Hb; simpl in Hz, Ha, Hb; try discriminate.
  injection Hz as <-. injection Ha as <-. injection Hb as <-.
  unfold default_tol. rewrite Rabs_pos_eq by lra. lra.
Defined.

(** C1 as it is stated fails where [tol_lambda_1 <= 0] lets [lambda_1 = 0]
    into the power branch: there [f] divides zero by zero. *)
Lemma round_trip_fails_at_zero_tol :
  let T := {| lambda_1 := [Fin 0]; lambda_2 := [Fin 0];
              tol_lambda_1 := 0 |} in
  0 < 1 + 0 /\ 0 <= Rabs 0 /\
  f T [Fin 1] = Some [NaN] /\
  f_inv T [NaN] = Some [NaN] /\
  ~ (exists y, f T [Fin 1] = Some y /\ f_inv T y = Some [Fin 1]).
Proof.
  intros T.
  assert (f T [Fin 1] = Some [NaN]) as Hf.
  { unfold f, T. cbn. unfold Num.pow_fin. rewrite Rabs_R0.
    real_cases. cbn. unfold Num.signed_inf. real_cases. reflexivity. }
  assert (f_inv T [NaN] = Some [NaN]) as Hi.
  { unfold f_inv, T. cbn. rewrite Rabs_R0. real_cases.
    unfold Num.signed_inf, Num.truthy. real_cases. reflexivity. }
  split; [lra|]. split; [rewrite Rabs_R0; lra|].
  split; [exact Hf|]. split; [exact Hi|].
  intros (y & Hy & Hinv). rewrite Hf in Hy. injection Hy as <-.
  rewrite Hi in Hinv. discriminate.
Qed.

(** ** The clamp of the inverse map *)

(** Where [y * lambda_1 + 1 < 0] the base is clamped to zero, and the power
    of zero is zero for a positive exponent and [+inf] for a negative one. *)
Lemma inverse_out_of_domain (tol a b y : R) :
  y * a + 1 < 0 -> tol <= Rabs a ->
  inverse_elem tol (Fin a) (Fin b) (Fin y)
  = Num.sub (Num.pow (Fin 0) (Fin (1 / a))) (Fin b) /\
  (0 < a -> inverse_elem tol (Fin a) (Fin b) (Fin y) = Fin (- b)) /\
  (a < 0 -> inverse_elem tol (Fin a) (Fin b) (Fin y) = PInf).
Proof.
  intros Hy Ht.
  assert (a <> 0) as Ha by (intros ->; lra).
  assert (inverse_elem tol (Fin a) (Fin b) (Fin y)
          = Num.sub (Num.pow (Fin 0) (Fin (1 / a))) (Fin b)) as E.
  { unfold inverse_elem. rewrite abs_ge_true by exact Ht.
    change (Num.add (Num.mul (Fin y) (Fin a)) (Fin 1)) with (Fin (y * a + 1)).
    rewrite relu_nonpos by lra. rewrite div_nonzero by exact Ha.
    reflexivity. }
  split; [exact E|]. split; intros Hs; rewrite E.
  - rewrite pow_zero_pos.
    + simpl. f_equal. lra.
    + unfold Rdiv. rewrite Rmult_1_l. apply Rinv_0_lt_compat. exact Hs.
  - rewrite pow_zero_neg; [reflexivity|].
    unfold Rdiv. rewrite Rmult_1_l. apply Rinv_lt_0_compat. exact Hs.
Qed.

(** C4, as amended. Out-of-domain inverse input: for real tensors of one
    shape with [y * lambda_1 + 1 < 0] and [|lambda_1| >= tol_lambda_1] at
    every element, [f_inv] raises no error and its element is
    [relu(y*lambda_1+1)^(1/lambda_1) - lambda_2] as the backend evaluates
    it, which is never [nan]: the real number [-lambda_2] where
    [lambda_1 > 0], and [+inf] where [lambda_1 < 0]. *)
Theorem f_inv_out_of_domain (tol : R) (l1s l2s ys : list R) :
  length l1s = length ys -> length l2s = length ys ->
  (forall i y a,
      ys !! i = Some y -> l1s !! i = Some a ->
      y * a + 1 < 0 /\ tol <= Rabs a) ->
  let T := {| lambda_1 := reals l1s; lambda_2 := reals l2s;
              tol_lambda_1 := tol |} in
  exists out, f_inv T (reals ys) = Some out /\ length out = length ys /\
    forall i y a b,
      ys !! i = Some y -> l1s !! i = Some a -> l2s !! i = Some b ->
      out !! i
      = Some (Num.sub (Num.pow (Num.relu (Fin (y * a + 1)))
                         (Num.div (Fin 1) (Fin a))) (Fin b)) /\
      out !! i <> Some NaN /\
      (0 < a -> out !! i = Some (Fin (- b))) /\
      (a < 0 -> out !! i = Some PInf).
Proof.
  intros L1 L2 H T.
  destruct (inverse_lookup T (reals ys)) as (out & Ho & Lo & Eo).
  { simpl. rewrite !length_reals. exact L1. }
  { left. simpl. rewrite !length_reals. exact L2. }
  rewrite length_reals in Lo.
  exists out. split; [exact Ho|]. split; [exact Lo|].
  intros i y a b Ey Ea Eb.
  destruct (H i y a Ey Ea) as [Hy Ht].
  assert (i < length ys)%nat as Hi by (eapply lookup_lt_Some; exact Ey).
  assert (out !! i = Some (inverse_elem tol (Fin a) (Fin b) (Fin y))) as E.
  { apply Eo; simpl.
    - rewrite lookup_reals, Ey. reflexivity.
    - rewrite lookup_reals, Ea. reflexivity.
    - rewrite bget_lookup by (rewrite length_reals; lia).
      rewrite lookup_reals, Eb. reflexivity. }
  destruct (inverse_out_of_domain tol a b y Hy Ht) as (E0 & Epos & Eneg).
  assert (a <> 0) as Ha by (intros ->; lra).
  repeat split.
  - rewrite E, E0. rewrite relu_nonpos by lra.
    rewrite div_nonzero by exact Ha. reflexivity.
  - rewrite E. destruct (Rlt_dec 0 a) as [Hs|Hs].
    + rewrite Epos by exact Hs. discriminate.
    + rewrite Eneg by lra. discriminate.
  - intros Hs. rewrite E, Epos by exact Hs. reflexivity.
  - intros Hs. rewrite E, Eneg by exact Hs. reflexivity.
Qed.

(** The documented example: [lambda_1 = 1.1], [lambda_2 = 0], [y = -0.91]. *)
Lemma f_inv_out_of_domain_witness :
  exists out,
    f_inv {| lambda_1 := reals [11 / 10]; lambda_2 := reals [0];
             tol_lambda_1 := default_tol |} (reals [- (91 / 100)])
    = Some out /\
    length out = 1%nat /\
    forall i y a b,
      [- (91 / 100)] !! i = Some y -> [11 / 10] !! i = Some a ->
      [0] !! i = Some b ->
      out !! i
      = Some (Num.sub (Num.pow (Num.relu (Fin (y * a + 1)))
                         (Num.div (Fin 1) (Fin a))) (Fin b)) /\
      out !! i <> Some NaN /\
      (0 < a -> out !! i = Some (Fin (- b))) /\
      (a < 0 -> out !! i = Some PInf).
Proof.
  apply (f_inv_out_of_domain default_tol [11 / 10] [0] [- (91 / 100)]);
    try reflexivity.
  intros [|i] y a Hy Ha; simpl in Hy, Ha; try discriminate.
  injection Hy as <-. injection Ha as <-.
  unfold default_tol. rewrite Rabs_pos_eq by lra. lra.
Defined.

Lemma f_inv_documented_example :
  f_inv {| lambda_1 := [Fin (11 / 10)]; lambda_2 := [Fin 0];
           tol_lambda_1 := default_tol |} [Fin (- (91 / 100))]
  = Some [Fin 0].
Proof.
  apply inverse_eq; try reflexivity. cbn [lambda_1 lambda_2 tol_lambda_1].
  intros [|i] yi a b Hy Ha Hb; simpl in Hy, Ha, Hb; try discriminate.
  simplify_eq. simpl. f_equal.
  destruct (inverse_out_of_domain default_tol (11 / 10) 0 (- (91 / 100)))
    as (_ & -> & _); try lra.
  - unfold default_tol. rewrite Rabs_pos_eq by lra. lra.
  - f_equal. lra.
Qed.

(** C4 as it is stated fails for a negative [lambda_1]: the clamped base is
    zero, its power with a negative exponent is [+inf], not a real
    number. *)
Lemma f_inv_out_of_domain_negative_lambda :
  let T := {| lambda_1 := [Fin (-1)]; lambda_2 := [Fin 0];
              tol_lambda_1 := default_tol |} in
  2 * -1 + 1 < 0 /\ default_tol <= Rabs (-1) /\
  f_inv T [Fin 2] = Some [PInf] /\
  ~ (exists r, f_inv T [Fin 2] = Some [Fin r]).
Proof.
  intros T.
  assert (default_tol <= Rabs (-1)) as Ht.
  { unfold default_tol. rewrite Rabs_left by lra. lra. }
  assert (f_inv T [Fin 2] = Some [PInf]) as E.
  { apply inverse_eq; try reflexivity. cbn [T lambda_1 lambda_2 tol_lambda_1].
    intros [|i] yi a b Hy Ha Hb; simpl in Hy, Ha, Hb; try discriminate.
    simplify_eq. simpl. f_equal.
    destruct (inverse_out_of_domain default_tol (-1) 0 2) as (_ & _ & ->);
      try lra. reflexivity. }
  split; [lra|]. split; [exact Ht|]. split; [exact E|].
  intros [r Hr]. rewrite E in Hr. discriminate.
Qed.

(** ** The scalar case [lambda_1 = 1], [lambda_2 = 0] *)

Lemma forward_unit (tol z : R) :
  tol <= 1 -> forward_elem tol (Fin 1) (Fin 0) (Fin z) = Fin (z - 1).
Proof.
  intros Ht. unfold forward_elem.
  rewrite abs_ge_true by (rewrite Rabs_pos_eq; lra).
  change (Num.add (Fin z) (Fin 0)) with (Fin (z + 0)).
  assert (Num.pow (Fin (z + 0)) (Fin 1) = Fin z) as ->.
  { destruct (Rlt_dec 0 z) as [Hz|Hz].
    - rewrite pow_pos by lra. rewrite Rpower_1 by lra. f_equal. lra.
    - simpl. unfold Num.pow_fin. rewrite (is_int_IZR 1).
      real_cases; simpl; f_equal; try lra.
      rewrite Rpower_1 by lra. lra. }
  simpl. real_cases. f_equal. lra.
Qed.

Lemma inverse_unit (tol y : R) :
  tol <= 1 -> inverse_elem tol (Fin 1) (Fin 0) (Fin y) = Fin (Rmax (y + 1) 0).
Proof.
  intros Ht. unfold inverse_elem.
  rewrite abs_ge_true by (rewrite Rabs_pos_eq; lra).
  rewrite base_clamp. unfold clamp. rewrite div_nonzero by lra.
  replace (y * 1 + 1) with (y + 1) by lra.
  destruct (Rle_dec (y + 1) 0) as [Hy|Hy].
  - rewrite Rmax_right by exact Hy. rewrite pow_zero_pos by lra.
    simpl. f_equal. lra.
  - rewrite Rmax_left by lra. rewrite pow_pos by lra.
    replace (1 / 1) with 1 by lra. rewrite Rpower_1 by lra.
    simpl. f_equal. lra.
Qed.

(** C7, as amended. With [lambda_1 = 1] and [lambda_2 = 0] at every element
    (and [tol_lambda_1 <= 1], so that the power branch is taken), [f(z)] is
    [z - 1] for every real [z], and [f_inv(y)] is [max(y + 1, 0)]: [y + 1]
    for every [y >= -1], and [0] below. *)
Theorem scalar_case (tol : R) (zs ys : list R) :
  tol <= 1 ->
  let T n := {| lambda_1 := replicate n (Fin 1);
                lambda_2 := replicate n (Fin 0);
                tol_lambda_1 := tol |} in
  f (T (length zs)) (reals zs) = Some (reals ((fun z => z - 1) <$> zs)) /\
  f_inv (T (length ys)) (reals ys)
  = Some (reals ((fun y => Rmax (y + 1) 0) <$> ys)) /\
  (forall y, -1 <= y -> Rmax (y + 1) 0 = y + 1) /\
  (forall y, y < -1 -> Rmax (y + 1) 0 = 0).
Proof.
  intros Ht T. repeat split.
  - apply forward_eq; simpl;
      rewrite ?length_replicate, ?length_reals, ?length_fmap; try reflexivity.
    intros i zi a b Hz Ha Hb.
    apply lookup_replicate in Ha as [-> _].
    apply lookup_replicate in Hb as [-> _].
    rewrite lookup_reals in Hz. rewrite lookup_reals, list_lookup_fmap.
    destruct (zs !! i) as [z|]; [|discriminate]. simpl in Hz.
    injection Hz as <-. simpl. rewrite forward_unit by exact Ht. reflexivity.
  - apply inverse_eq; simpl;
      rewrite ?length_replicate, ?length_reals, ?length_fmap; try reflexivity.
    intros i yi a b Hy Ha Hb.
    apply lookup_replicate in Ha as [-> _].
    apply lookup_replicate in Hb as [-> _].
    rewrite lookup_reals in Hy. rewrite lookup_reals, list_lookup_fmap.
    destruct (ys !! i) as [y|]; [|discriminate]. simpl in Hy.
    injection Hy as <-. simpl. rewrite inverse_unit by exact Ht. reflexivity.
  - intros y Hy. apply Rmax_left. lra.
  - intros y Hy. apply Rmax_right. lra.
Qed.

Lemma scalar_case_witness :
  let T n := {| lambda_1 := replicate n (Fin 1);
                lambda_2 := replicate n (Fin 0);
                tol_lambda_1 := default_tol |} in
  f (T 2%nat) (reals [5; -3]) = Some (reals ((fun z => z - 1) <$> [5; -3])) /\
  f_inv (T 2%nat) (reals [4; -3])
  = Some (reals ((fun y => Rmax (y + 1) 0) <$> [4; -3])) /\
  (forall y, -1 <= y -> Rmax (y + 1) 0 = y + 1) /\
  (forall y, y < -1 -> Rmax (y + 1) 0 = 0).
Proof.
  apply (scalar_case default_tol [5; -3] [4; -3]). unfold default_tol. lra.
Defined.

(** C7 as it is stated fails below [y = -1]: the base [y + 1] is clamped to
    zero, and [f_inv] returns [0], not [y + 1]. *)
Lemma scalar_case_inverse_clamped :
  let T := {| lambda_1 := [Fin 1]; lambda_2 := [Fin 0];
              tol_lambda_1 := default_tol |} in
  f_inv T [Fin (-2)] = Some [Fin 0] /\
  f_inv T [Fin (-2)] <> Some [Fin (-2 + 1)].
Proof.
  intros T.
  assert (f_inv T [Fin (-2)] = Some [Fin 0]) as E.
  { apply inverse_eq; try reflexivity. cbn [T lambda_1 lambda_2 tol_lambda_1].
    intros [|i] yi a b Hy Ha Hb; simpl in Hy, Ha, Hb; try discriminate.
    simplify_eq. simpl. f_equal.
    rewrite inverse_unit by (unfold default_tol; lra).
    f_equal. rewrite Rmax_right; lra. }
  split; [exact E|]. rewrite E. intros H. injection H as H. lra.
Qed.

(** ** The constraint on [lambda_2] *)

Lemma scaled_ones (t : tensor) (c : R) :
  F.mul_scalar (F.ones_like t) c = replicate (length t) (Fin c).
Proof.
  unfold F.mul_scalar, F.ones_like.
  induction t as [|x t IH]; simpl; [reflexivity|].
  f_equal; [f_equal; lra | exact IH].
Qed.

Lemma zip_sub_constant (l : list R) (c : R) (n : nat) :
  n = length l ->
  zip_with Num.sub (Num.softrelu <$> reals l) (replicate n (Fin c))
  = reals ((fun x => ln (1 + exp x) - c) <$> l).
Proof.
  intros ->. unfold reals.
  induction l as [|x l IH]; simpl; [reflexivity|].
  f_equal. exact IH.
Qed.

Lemma sub_constant (l : list R) (c : R) :
  F.sub (Num.softrelu <$> reals l) (replicate (length l) (Fin c))
  = Some (reals ((fun x => ln (1 + exp x) - c) <$> l)).
Proof.
  rewrite <- (zip_sub_constant l c (length l) eq_refl).
  unfold F.sub, F.broadcast.
  destruct l as [|x [|x' l]]; try reflexivity.
  simpl. rewrite (proj2 (Nat.eqb_eq _ _)); [reflexivity|].
  change (list_fmap num num Num.softrelu (reals l))
    with (Num.softrelu <$> reals l).
  rewrite length_fmap, length_reals, length_replicate. reflexivity.
Qed.

Lemma softplus_positive (x : R) : 0 < ln (1 + exp x).
Proof.
  rewrite <- ln_1. apply ln_increasing; [lra|].
  pose proof (exp_pos x). lra.
Qed.

(** C8. Learned [lambda_2]: with [fix_lambda_2 = False], for real raw
    inputs, the layer returns [softplus(raw_lambda_2) - lb_obs] at every
    element (and [lambda_1] as it came); each such value is above [-lb_obs],
    so that [observation + lambda_2 > 0] whenever [observation > lb_obs]. *)
Theorem domain_map_learned (O : BoxCoxTransformOutput)
    (raw_1 : tensor) (raw_2 : list R) :
  fix_lambda_2 O = false ->
  domain_map O (raw_1, reals raw_2)
  = Some (raw_1, reals ((fun x => ln (1 + exp x) - lb_obs O) <$> raw_2)) /\
  forall x,
    - lb_obs O < ln (1 + exp x) - lb_obs O /\
    forall observation,
      lb_obs O < observation -> 0 < observation + (ln (1 + exp x) - lb_obs O).
Proof.
  intros Hfix. split.
  - unfold domain_map. rewrite Hfix. rewrite scaled_ones.
    unfold softplus. rewrite length_reals.
    rewrite sub_constant. reflexivity.
  - intros x. pose proof (softplus_positive x). split; [lra|].
    intros observation Hobs. lra.
Qed.

(** With [lb_obs = 5.0], as in the specification. *)
Lemma domain_map_learned_witness :
  domain_map {| lb_obs := 5; fix_lambda_2 := false |}
    ([Fin 1; Fin 2], reals [-100; 100])
  = Some ([Fin 1; Fin 2],
          reals ((fun x => ln (1 + exp x) - 5) <$> [-100; 100])) /\
  forall x,
    - 5 < ln (1 + exp x) - 5 /\
    forall observation,
      5 < observation -> 0 < observation + (ln (1 + exp x) - 5).
Proof.
  apply (domain_map_learned {| lb_obs := 5; fix_lambda_2 := false |}
           [Fin 1; Fin 2] [-100; 100]).
  reflexivity.
Defined.

(** C9. Fixed [lambda_2]: with [fix_lambda_2 = True] the returned
    [lambda_2] is the constant [lb_obs] at every element, whatever the raw
    tensor holds, infinities and [nan] included. *)
Theorem domain_map_fixed (O : BoxCoxTransformOutput) (raw_1 raw_2 : tensor) :
  fix_lambda_2 O = true ->
  domain_map O (raw_1, raw_2)
  = Some (raw_1, replicate (length raw_2) (Fin (lb_obs O))).
Proof.
  intros Hfix. unfold domain_map. rewrite Hfix. rewrite scaled_ones.
  reflexivity.
Qed.

Lemma domain_map_fixed_witness :
  domain_map {| lb_obs := 5; fix_lambda_2 := true |}
    ([Fin 1; Fin 2], [NInf; NaN])
  = Some ([Fin 1; Fin 2], replicate 2 (Fin 5)).
Proof.
  apply (domain_map_fixed {| lb_obs := 5; fix_lambda_2 := true |}
           [Fin 1; Fin 2] [NInf; NaN]).
  reflexivity.
Defined.

(** ** The range of the inverse map *)

Lemma inverse_range (tol a b y : R) :
  num_le (Fin (- b)) (inverse_elem tol (Fin a) (Fin b) (Fin y)) /\
  (Rabs a < tol ->
   num_lt (Fin (- b)) (inverse_elem tol (Fin a) (Fin b) (Fin y))).
Proof.
  destruct (abs_ge_cases a tol) as [[Ht Hc]|[Ht Hc]].
  - split; [|intros; lra].
    unfold inverse_elem. rewrite Hc, base_clamp.
    assert (0 <= clamp y a) as Hb by (unfold clamp; apply Rmax_r).
    destruct (Req_dec_T a 0) as [->|Ha].
    + assert (clamp y 0 = 1) as ->.
      { unfold clamp. rewrite Rmax_left; lra. }
      simpl. unfold Num.signed_inf. real_cases. simpl. rewrite Rabs_R1.
      real_cases. simpl. lra.
    + rewrite div_nonzero by exact Ha.
      destruct (Req_dec_T (clamp y a) 0) as [->|Hne].
      * destruct (Rlt_dec 0 (1 / a)) as [Hs|Hs].
        -- rewrite pow_zero_pos by exact Hs. simpl. lra.
        -- rewrite pow_zero_neg; [exact I|].
           assert (1 / a <> 0) as Hz.
           { unfold Rdiv. rewrite Rmult_1_l. apply Rinv_neq_0_compat.
             exact Ha. }
           lra.
      * rewrite pow_pos by lra. simpl.
        assert (0 < Rpower (clamp y a) (1 / a))
          by (unfold Rpower; apply exp_pos).
        lra.
  - rewrite inverse_log by exact Ht. simpl.
    pose proof (exp_pos y). split; [lra | intros; lra].
Qed.

(** C10. Range of the inverse: for real tensors of one shape, whatever [y]
    is (out of the domain too), every element of [f_inv(y)] is at least
    [-lambda_2] in the order of the extended real line, and strictly above
    it on the log branch. *)
Theorem f_inv_range (tol : R) (l1s l2s ys : list R) :
  length l1s = length ys -> length l2s = length ys ->
  let T := {| lambda_1 := reals l1s; lambda_2 := reals l2s;
              tol_lambda_1 := tol |} in
  exists out, f_inv T (reals ys) = Some out /\ length out = length ys /\
    forall i o a b,
      out !! i = Some o -> l1s !! i = Some a -> l2s !! i = Some b ->
      num_le (Fin (- b)) o /\ (Rabs a < tol -> num_lt (Fin (- b)) o).
Proof.
  intros L1 L2 T.
  destruct (inverse_lookup T (reals ys)) as (out & Ho & Lo & Eo).
  { simpl. rewrite !length_reals. exact L1. }
  { left. simpl. rewrite !length_reals. exact L2. }
  rewrite length_reals in Lo.
  exists out. split; [exact Ho|]. split; [exact Lo|].
  intros i o a b Hio Ea Eb.
  assert (i < length ys)%nat as Hi.
  { rewrite <- Lo. eapply lookup_lt_Some. exact Hio. }
  destruct (lookup_lt_is_Some_2 ys i Hi) as [y Ey].
  assert (out !! i = Some (inverse_elem tol (Fin a) (Fin b) (Fin y))) as E.
  { apply Eo; simpl.
    - rewrite lookup_reals, Ey. reflexivity.
    - rewrite lookup_reals, Ea. reflexivity.
    - rewrite bget_lookup by (rewrite length_reals; lia).
      rewrite lookup_reals, Eb. reflexivity. }
  rewrite E in Hio. injection Hio as <-.
  apply inverse_range.
Qed.

Lemma f_inv_range_witness :
  exists out,
    f_inv {| lambda_1 := reals [-1; 0]; lambda_2 := reals [3; 4];
             tol_lambda_1 := default_tol |} (reals [2; 7]) = Some out /\
    length out = 2%nat /\
    forall i o a b,
      out !! i = Some o -> [-1; 0] !! i = Some a -> [3; 4] !! i = Some b ->
      num_le (Fin (- b)) o /\ (Rabs a < default_tol -> num_lt (Fin (- b)) o).
Proof.
  apply (f_inv_range default_tol [-1; 0] [3; 4] [2; 7]); reflexivity.
Defined.

(** ** Monotonicity *)

Lemma Rpower_base_decreasing (x1 x2 a : R) :
  0 < x1 -> x1 < x2 -> a < 0 -> Rpower x2 a < Rpower x1 a.
Proof.
  intros H1 H12 Ha. unfold Rpower. apply exp_increasing.
  pose proof (ln_increasing x1 x2 H1 H12). nra.
Qed.

Lemma forward_increasing (tol a b z1 z2 : R) :
  0 < z1 + b -> z1 < z2 -> (tol <= Rabs a -> a <> 0) ->
  exists r1 r2,
    forward_elem tol (Fin a) (Fin b) (Fin z1) = Fin r1 /\
    forward_elem tol (Fin a) (Fin b) (Fin z2) = Fin r2 /\
    r1 < r2.
Proof.
  intros H1 H12 Hne.
  destruct (abs_ge_cases a tol) as [[Ht _]|[Ht _]].
  - specialize (Hne Ht).
    rewrite !forward_power by (try assumption; lra).
    do 2 eexists. split; [reflexivity|]. split; [reflexivity|].
    destruct (Rlt_dec 0 a) as [Hs|Hs].
    + assert (Rpower (z1 + b) a < Rpower (z2 + b) a)
        by (apply Rlt_Rpower_l; lra).
      apply Rmult_lt_compat_r; [apply Rinv_0_lt_compat; exact Hs | lra].
    + assert (a < 0) as Hs' by lra.
      assert (Rpower (z2 + b) a < Rpower (z1 + b) a)
        by (apply Rpower_base_decreasing; lra).
      assert (/ a < 0) by (apply Rinv_lt_0_compat; exact Hs').
      unfold Rdiv. nra.
  - rewrite !forward_log by (try assumption; lra).
    do 2 eexists. split; [reflexivity|]. split; [reflexivity|].
    apply ln_increasing; lra.
Qed.

Lemma jacobian_finite (tol a b z : R) :
  0 < z + b -> is_finite (jacobian_elem tol (Fin a) (Fin b) (Fin z)).
Proof.
  intros Hz. destruct (abs_ge_cases a tol) as [[Ht _]|[Ht _]].
  - rewrite jacobian_power by assumption. eexists. reflexivity.
  - rewrite jacobian_log by assumption. eexists. reflexivity.
Qed.

Lemma finite_tensor (out : tensor) :
  (forall i o, out !! i = Some o -> is_finite o) ->
  out = reals (to_real <$> out).
Proof.
  induction out as [|o out IH]; intros H; [reflexivity|].
  unfold reals. simpl. f_equal.
  - destruct (H 0%nat o eq_refl) as [r ->]. reflexivity.
  - apply IH. intros i o' Hi. exact (H (S i) o' Hi).
Qed.

(** With [lambda_1 = 0] on the power branch the forward map is [0/0]. *)
Lemma forward_zero_lambda (tol b z : R) :
  tol <= 0 -> forward_elem tol (Fin 0) (Fin b) (Fin z) = NaN.
Proof.
  intros Ht. unfold forward_elem.
  rewrite abs_ge_true by (rewrite Rabs_R0; exact Ht).
  simpl. unfold Num.pow_fin.
  destruct (Req_dec_T 0 0) as [_|Hn]; [|contradiction].
  simpl. unfold Num.signed_inf. real_cases. reflexivity.
Qed.

Lemma forward_finite_increasing (tol : R) (l1s l2s z1s z2s : list R) :
  length l1s = length z1s -> length l2s = length z1s ->
  length z2s = length z1s ->
  (forall i a, l1s !! i = Some a -> tol <= Rabs a -> a <> 0) ->
  (forall i z1 z2 b,
      z1s !! i = Some z1 -> z2s !! i = Some z2 -> l2s !! i = Some b ->
      z1 < z2 /\ 0 < z1 + b /\ 0 < z2 + b) ->
  let T := {| lambda_1 := reals l1s; lambda_2 := reals l2s;
              tol_lambda_1 := tol |} in
  exists r1s r2s,
    f T (reals z1s) = Some (reals r1s) /\
    f T (reals z2s) = Some (reals r2s) /\
    length r1s = length z1s /\ length r2s = length z1s /\
    forall i x1 x2, r1s !! i = Some x1 -> r2s !! i = Some x2 -> x1 < x2.
Proof.
  intros L1 L2 L3 Hne H T.
  destruct (forward_lookup T (reals z1s)) as (o1 & Ho1 & Lo1 & E1);
    [left; simpl; rewrite !length_reals; lia
    |left; simpl; rewrite !length_reals; lia|].
  destruct (forward_lookup T (reals z2s)) as (o2 & Ho2 & Lo2 & E2);
    [left; simpl; rewrite !length_reals; lia
    |left; simpl; rewrite !length_reals; lia|].
  rewrite length_reals in Lo1, Lo2. rewrite L3 in Lo2.
  (* every position of the two results, by its inputs *)
  assert (forall i, (i < length z1s)%nat ->
            exists r1 r2,
              o1 !! i = Some (Fin r1) /\ o2 !! i = Some (Fin r2) /\
              r1 < r2) as Hall.
  { intros i Hi.
    destruct (lookup_lt_is_Some_2 z1s i Hi) as [z1 Ez1].
    destruct (lookup_lt_is_Some_2 z2s i) as [z2 Ez2]; [lia|].
    destruct (lookup_lt_is_Some_2 l1s i) as [a Ea]; [lia|].
    destruct (lookup_lt_is_Some_2 l2s i) as [b Eb]; [lia|].
    destruct (H i z1 z2 b Ez1 Ez2 Eb) as (H12 & Hz1 & Hz2).
    destruct (forward_increasing tol a b z1 z2 Hz1 H12 (Hne i a Ea))
      as (r1 & r2 & F1 & F2 & Hlt).
    assert (bget (lambda_1 T) i = Some (Fin a)) as Ba.
    { simpl. rewrite bget_lookup by (rewrite length_reals; lia).
      rewrite lookup_reals, Ea. reflexivity. }
    assert (bget (lambda_2 T) i = Some (Fin b)) as Bb.
    { simpl. rewrite bget_lookup by (rewrite length_reals; lia).
      rewrite lookup_reals, Eb. reflexivity. }
    exists r1, r2. repeat split; try assumption.
    - rewrite <- F1. apply E1; try assumption.
      rewrite lookup_reals, Ez1. reflexivity.
    - rewrite <- F2. apply E2; try assumption.
      rewrite lookup_reals, Ez2. reflexivity. }
  exists (to_real <$> o1), (to_real <$> o2).
  rewrite !length_fmap.
  repeat split; try assumption.
  - rewrite Ho1. f_equal. apply finite_tensor. intros i o Hio.
    destruct (Hall i) as (r1 & ? & E & _).
    { rewrite <- Lo1. eapply lookup_lt_Some. exact Hio. }
    exists r1. congruence.
  - rewrite Ho2. f_equal. apply finite_tensor. intros i o Hio.
    destruct (Hall i) as (? & r2 & _ & E & _).
    { rewrite <- Lo2. eapply lookup_lt_Some. exact Hio. }
    exists r2. congruence.
  - intros i x1 x2 Hx1 Hx2.
    rewrite list_lookup_fmap in Hx1, Hx2.
    assert (i < length z1s)%nat as Hi.
    { rewrite <- Lo1. apply lookup_lt_is_Some.
      destruct (o1 !! i); [eauto | discriminate]. }
    destruct (Hall i Hi) as (r1 & r2 & F1 & F2 & Hlt).
    rewrite F1 in Hx1. rewrite F2 in Hx2. simpl in Hx1, Hx2.
    injection Hx1 as <-. injection Hx2 as <-. exact Hlt.
Qed.

Lemma jacobian_finite_tensor (tol : R) (l1s l2s zs : list R) :
  length l1s = length zs -> length l2s = length zs ->
  (forall i z b, zs !! i = Some z -> l2s !! i = Some b -> 0 < z + b) ->
  let T := {| lambda_1 := reals l1s; lambda_2 := reals l2s;
              tol_lambda_1 := tol |} in
  exists js,
    log_abs_det_jac T (reals zs) = Some (reals js) /\
    length js = length zs.
Proof.
  intros L1 L2 H T.
  destruct (jacobian_lookup T (reals zs)) as (oj & Hoj & Loj & Ej);
    [simpl; rewrite !length_reals; lia
    |left; simpl; rewrite !length_reals; lia|].
  rewrite length_reals in Loj.
  exists (to_real <$> oj). rewrite length_fmap. split; [|exact Loj].
  rewrite Hoj. f_equal. apply finite_tensor. intros i o Hio.
  assert (i < length zs)%nat as Hi.
  { rewrite <- Loj. eapply lookup_lt_Some. exact Hio. }
  destruct (lookup_lt_is_Some_2 zs i Hi) as [z Ez].
  destruct (lookup_lt_is_Some_2 l1s i) as [a Ea]; [lia|].
  destruct (lookup_lt_is_Some_2 l2s i) as [b Eb]; [lia|].
  assert (oj !! i = Some (jacobian_elem tol (Fin a) (Fin b) (Fin z))) as E.
  { apply Ej; simpl.
    - rewrite lookup_reals, Ez. reflexivity.
    - rewrite lookup_reals, Ea. reflexivity.
    - rewrite bget_lookup by (rewrite length_reals; lia).
      rewrite lookup_reals, Eb. reflexivity. }
  rewrite E in Hio. injection Hio as <-.
  apply jacobian_finite. exact (H i z b Ez Eb).
Qed.

(** C6, as amended. Monotonicity, for real parameter tensors of one shape.
    (1) If [lambda_1 <> 0] wherever the power branch is taken (which holds
    as soon as [tol_lambda_1 > 0]), then for two inputs with [z1 < z2],
    [z1 + lambda_2 > 0] and [z2 + lambda_2 > 0] at every element, [f(z1)]
    and [f(z2)] are real tensors with [f(z1) < f(z2)] at every element.
    (2) For every input with [z + lambda_2 > 0] at every element,
    [log_abs_det_jac(z)] is a real tensor. *)
Theorem f_increasing (tol : R) (l1s l2s : list R) :
  length l2s = length l1s ->
  let T := {| lambda_1 := reals l1s; lambda_2 := reals l2s;
              tol_lambda_1 := tol |} in
  (forall z1s z2s,
      length z1s = length l1s -> length z2s = length l1s ->
      (forall i a, l1s !! i = Some a -> tol <= Rabs a -> a <> 0) ->
      (forall i z1 z2 b,
          z1s !! i = Some z1 -> z2s !! i = Some z2 -> l2s !! i = Some b ->
          z1 < z2 /\ 0 < z1 + b /\ 0 < z2 + b) ->
      exists r1s r2s,
        f T (reals z1s) = Some (reals r1s) /\
        f T (reals z2s) = Some (reals r2s) /\
        length r1s = length z1s /\ length r2s = length z1s /\
        forall i x1 x2,
          r1s !! i = Some x1 -> r2s !! i = Some x2 -> x1 < x2) /\
  (forall zs,
      length zs = length l1s ->
      (forall i z b, zs !! i = Some z -> l2s !! i = Some b -> 0 < z + b) ->
      exists js,
        log_abs_det_jac T (reals zs) = Some (reals js) /\
        length js = length zs).
Proof.
  intros L T. split.
  - intros z1s z2s Lz1 Lz2 Hne H.
    apply forward_finite_increasing; try assumption; lia.
  - intros zs Lz H. apply jacobian_finite_tensor; try assumption; lia.
Qed.

Lemma f_increasing_witness :
  let T := {| lambda_1 := reals [2; 0]; lambda_2 := reals [1; 1];
              tol_lambda_1 := default_tol |} in
  (exists r1s r2s,
      f T (reals [3; 4]) = Some (reals r1s) /\
      f T (reals [5; 6]) = Some (reals r2s) /\
      length r1s = 2%nat /\ length r2s = 2%nat /\
      forall i x1 x2, r1s !! i = Some x1 -> r2s !! i = Some x2 -> x1 < x2) /\
  (exists js,
      log_abs_det_jac T (reals [3; 4]) = Some (reals js) /\
      length js = 2%nat).
Proof.
  intros T.
  destruct (f_increasing default_tol [2; 0] [1; 1] eq_refl) as [Hf Hj].
  split.
  - apply (Hf [3; 4] [5; 6]); try reflexivity.
    + intros [|[|i]] a Ha Ht; simpl in Ha; try discriminate;
        injection Ha as <-.
      * lra.
      * unfold default_tol in Ht. rewrite Rabs_R0 in Ht. lra.
    + intros [|[|i]] z1 z2 b H1 H2 Hb; simpl in H1, H2, Hb;
        try discriminate;
        injection H1 as <-; injection H2 as <-; injection Hb as <-; lra.
  - apply (Hj [3; 4]); try reflexivity.
    intros [|[|i]] z b Hz Hb; simpl in Hz, Hb; try discriminate;
      injection Hz as <-; injection Hb as <-; lra.
Defined.

(** C6 as it is stated fails where [tol_lambda_1 <= 0] lets [lambda_1 = 0]
    into the power branch: [f] is [nan] there, and [nan] is below
    nothing. *)
Lemma f_not_increasing_at_zero_tol :
  let T := {| lambda_1 := [Fin 0]; lambda_2 := [Fin 0];
              tol_lambda_1 := 0 |} in
  1 < 2 /\ 0 < 1 + 0 /\ 0 < 2 + 0 /\
  f T [Fin 1] = Some [NaN] /\ f T [Fin 2] = Some [NaN] /\
  ~ num_lt NaN NaN.
Proof.
  intros T.
  assert (forall z, 0 < z -> f T [Fin z] = Some [NaN]) as E.
  { intros z Hz. apply forward_eq; try reflexivity.
    cbn [T lambda_1 lambda_2 tol_lambda_1].
    intros [|i] zi a b Hzi Ha Hb; simpl in Hzi, Ha, Hb; try discriminate.
    simplify_eq. simpl. f_equal. symmetry. apply forward_zero_lambda. lra. }
  repeat split; try lra; try (apply E; lra).
  intros [].
Qed.

(** ** The Jacobian *)

(** Multiplication by [-1.0] is negation. *)
Lemma mul_minus_one (x : num) : Num.mul x (Fin (-1)) = Num.flip x.
Proof.
  destruct x as [r| | |]; simpl; try reflexivity.
  - f_equal. lra.
  - unfold Num.signed_inf. real_cases. reflexivity.
  - unfold Num.signed_inf. real_cases. reflexivity.
Qed.

Lemma derivative_at_unique (g : num -> num) (z0 d1 d2 : R) :
  derivative_at g z0 d1 -> derivative_at g z0 d2 -> d1 = d2.
Proof.
  intros (g1 & (e1 & He1 & N1) & D1) (g2 & (e2 & He2 & N2) & D2).
  apply (uniqueness_limite g2 z0); [|exact D2].
  apply (derivable_pt_lim_locally_ext g1 g2 z0
           (z0 - Rmin e1 e2) (z0 + Rmin e1 e2)); [| |exact D1].
  - pose proof (Rmin_pos e1 e2 He1 He2). lra.
  - intros z [Hl Hr].
    assert (Rabs (z - z0) < Rmin e1 e2) as Hz by (apply Rabs_def1; lra).
    pose proof (Rmin_l e1 e2). pose proof (Rmin_r e1 e2).
    assert (Fin (g1 z) = Fin (g2 z)) as E.
    { rewrite <- N1 by lra. rewrite <- N2 by lra. reflexivity. }
    injection E as E. exact E.
Qed.

Lemma shift_derivative (b z0 : R) : derivable_pt_lim (fun z => z + b) z0 1.
Proof.
  apply (derivable_pt_lim_ext (id + fct_cte b)%F); [intros; reflexivity|].
  replace 1 with (1 + 0) by lra.
  apply derivable_pt_lim_plus;
    [apply derivable_pt_lim_id | apply derivable_pt_lim_const].
Qed.

Lemma near_positive (b z0 z : R) : Rabs (z - z0) < z0 + b -> 0 < z + b.
Proof. intros H. apply Rabs_def2 in H. lra. Qed.

(** Inside the domain the Jacobian term is the logarithm of the derivative
    of the forward map, which is positive. *)
Lemma forward_derivative (tol a b z0 : R) :
  0 < z0 + b -> (tol <= Rabs a -> a <> 0) ->
  exists d,
    derivative_at (forward_elem tol (Fin a) (Fin b)) z0 d /\ 0 < d /\
    jacobian_elem tol (Fin a) (Fin b) (Fin z0) = Fin (ln (Rabs d)).
Proof.
  intros Hz Hne.
  destruct (abs_ge_cases a tol) as [[Ht _]|[Ht _]].
  - specialize (Hne Ht).
    assert (0 < Rpower (z0 + b) (a - 1)) as Hd
      by (unfold Rpower; apply exp_pos).
    exists (Rpower (z0 + b) (a - 1)). split; [|split; [exact Hd|]].
    + exists (fun z => (Rpower (z + b) a - 1) / a). split.
      * exists (z0 + b). split; [exact Hz|]. intros z Hn.
        apply forward_power; [|exact Ht|exact Hne].
        apply (near_positive b z0). exact Hn.
      * assert (derivable_pt_lim (fun x => (Rpower x a - 1) / a) (z0 + b)
                  (Rpower (z0 + b) (a - 1))) as D2.
        { replace (Rpower (z0 + b) (a - 1))
            with ((a * Rpower (z0 + b) (a - 1) - 0) / a)
            by (field; exact Hne).
          apply derivable_pt_lim_div_scal.
          apply (derivable_pt_lim_ext
                   ((fun x => Rpower x a) - fct_cte 1)%F);
            [intros; reflexivity|].
          apply derivable_pt_lim_minus;
            [apply derivable_pt_lim_power; exact Hz
            | apply derivable_pt_lim_const]. }
        pose proof (derivable_pt_lim_comp _ _ _ _ _
                      (shift_derivative b z0) D2) as D.
        rewrite Rmult_1_r in D. exact D.
    + rewrite jacobian_power by assumption.
      rewrite Rabs_pos_eq by lra. rewrite ln_Rpower. f_equal. ring.
  - assert (0 < / (z0 + b)) as Hd by (apply Rinv_0_lt_compat; exact Hz).
    exists (/ (z0 + b)). split; [|split; [exact Hd|]].
    + exists (fun z => ln (z + b)). split.
      * exists (z0 + b). split; [exact Hz|]. intros z Hn.
        apply forward_log; [|exact Ht].
        apply (near_positive b z0). exact Hn.
      * pose proof (derivable_pt_lim_comp _ _ _ _ _
                      (shift_derivative b z0)
                      (derivable_pt_lim_ln (z0 + b) Hz)) as D.
        rewrite Rmult_1_r in D. exact D.
    + rewrite jacobian_log by assumption.
      rewrite Rabs_pos_eq by lra. rewrite ln_Rinv by exact Hz. reflexivity.
Qed.

(** C5, as amended. Log-abs-det-Jacobian contract: with [lambda_1] of the
    shape of [z] and [lambda_2] broadcast to it, element [i] of
    [log_abs_det_jac(z)] is [log(z + lambda_2) * (lambda_1 - 1)] if
    [|lambda_1| >= tol_lambda_1] and [-log(z + lambda_2)] otherwise; and at
    real elements with [z + lambda_2 > 0], and [lambda_1 <> 0] if the power
    branch is taken (which holds as soon as [tol_lambda_1 > 0]), the forward
    map has a derivative [d] at [z] and the element is [log |d|]. *)
Theorem log_abs_det_jac_contract (T : BoxCoxTranform) (z : tensor) :
  length (lambda_1 T) = length z -> broadcastable (lambda_2 T) z ->
  exists out, log_abs_det_jac T z = Some out /\ length out = length z /\
    forall i zi l1 l2,
      z !! i = Some zi ->
      lambda_1 T !! i = Some l1 -> bget (lambda_2 T) i = Some l2 ->
      out !! i
      = Some (if abs_ge l1 (tol_lambda_1 T)
              then Num.mul (Num.log (Num.add zi l2)) (Num.sub l1 (Fin 1))
              else Num.flip (Num.log (Num.add zi l2))) /\
      forall rz a b,
        zi = Fin rz -> l1 = Fin a -> l2 = Fin b ->
        0 < rz + b -> (tol_lambda_1 T <= Rabs a -> a <> 0) ->
        exists d,
          derivative_at (forward_elem (tol_lambda_1 T) (Fin a) (Fin b)) rz d /\
          out !! i = Some (Fin (ln (Rabs d))).
Proof.
  intros B1 B2.
  destruct (jacobian_lookup T z B1 B2) as (out & Ho & Lo & E).
  exists out. split; [exact Ho|]. split; [exact Lo|].
  intros i zi l1 l2 Hz H1 H2.
  rewrite (E i zi l1 l2 Hz H1 H2). split.
  - unfold jacobian_elem. rewrite mul_minus_one. reflexivity.
  - intros rz a b -> -> -> Hpos Hne.
    destruct (forward_derivative (tol_lambda_1 T) a b rz Hpos Hne)
      as (d & D & _ & Ed).
    exists d. split; [exact D|]. rewrite Ed. reflexivity.
Qed.

Lemma log_abs_det_jac_contract_witness :
  exists out,
    log_abs_det_jac {| lambda_1 := [Fin 2; Fin 0]; lambda_2 := [Fin 1];
                       tol_lambda_1 := default_tol |} [Fin 3; Fin 4]
    = Some out /\
    length out = 2%nat /\
    forall i zi l1 l2,
      [Fin 3; Fin 4] !! i = Some zi ->
      [Fin 2; Fin 0] !! i = Some l1 -> bget [Fin 1] i = Some l2 ->
      out !! i
      = Some (if abs_ge l1 default_tol
              then Num.mul (Num.log (Num.add zi l2)) (Num.sub l1 (Fin 1))
              else Num.flip (Num.log (Num.add zi l2))) /\
      forall rz a b,
        zi = Fin rz -> l1 = Fin a -> l2 = Fin b ->
        0 < rz + b -> (default_tol <= Rabs a -> a <> 0) ->
        exists d,
          derivative_at (forward_elem default_tol (Fin a) (Fin b)) rz d /\
          out !! i = Some (Fin (ln (Rabs d))).
Proof.
  apply (log_abs_det_jac_contract
           {| lambda_1 := [Fin 2; Fin 0]; lambda_2 := [Fin 1];
              tol_lambda_1 := default_tol |} [Fin 3; Fin 4]).
  - reflexivity.
  - right. reflexivity.
Defined.

(** C5 as it is stated fails where [tol_lambda_1 <= 0] lets [lambda_1 = 0]
    into the power branch: the Jacobian term is a real number, but the
    forward map is [nan] and has no derivative. *)
Lemma jacobian_without_derivative :
  let T := {| lambda_1 := [Fin 0]; lambda_2 := [Fin 0];
              tol_lambda_1 := 0 |} in
  0 < 1 + 0 /\
  log_abs_det_jac T [Fin 1] = Some [Fin (ln (1 + 0) * (0 - 1))] /\
  f T [Fin 1] = Some [NaN] /\
  ~ (exists d, derivative_at (forward_elem 0 (Fin 0) (Fin 0)) 1 d).
Proof.
  intros T. split; [lra|]. split; [|split].
  - apply jacobian_eq; try reflexivity.
    cbn [T lambda_1 lambda_2 tol_lambda_1].
    intros [|i] zi a b Hz Ha Hb; simpl in Hz, Ha, Hb; try discriminate.
    simplify_eq. simpl. f_equal. symmetry.
    apply jacobian_power; [lra | rewrite Rabs_R0; lra].
  - apply forward_eq; try reflexivity.
    cbn [T lambda_1 lambda_2 tol_lambda_1].
    intros [|i] zi a b Hz Ha Hb; simpl in Hz, Ha, Hb; try discriminate.
    simplify_eq. simpl. f_equal. symmetry. apply forward_zero_lambda. lra.
  - intros (d & g & (e & He & N) & _).
    specialize (N 1). rewrite forward_zero_lambda in N by lra.
    assert (Rabs (1 - 1) < e) as Hn.
    { replace (1 - 1) with 0 by lra. rewrite Rabs_R0. exact He. }
    specialize (N Hn). discriminate.
Qed.

(** * Further properties of the code *)

(** ** Shape errors *)

Lemma shape_broadcast (op : num -> num -> num) (a b : tensor) :
  length <$> F.broadcast op a b = bshape (length a) (length b).
Proof.
  unfold F.broadcast, bshape.
  destruct a as [|x [|x' a]]; destruct b as [|y [|y' b]]; simpl;
    rewrite ?length_fmap; try reflexivity;
    destruct (length a =? length b)%nat eqn:E; simpl;
    rewrite ?length_zip_with; simpl; try reflexivity.
  apply Nat.eqb_eq in E. f_equal. lia.
Qed.

Lemma shape_broadcast_like (c z : tensor) :
  length <$> F.broadcast_like c z = like_shape (length c) (length z).
Proof.
  unfold F.broadcast_like, like_shape.
  destruct (length c =? length z)%nat; [reflexivity|].
  destruct c as [|x [|x' c]]; simpl; rewrite ?length_replicate; reflexivity.
Qed.

Lemma shape_where (c x y : tensor) :
  length <$> F.where_ c x y = where_shape (length c) (length x) (length y).
Proof.
  unfold F.where_, where_shape.
  destruct ((length c =? length x) && (length x =? length y))%nat eqn:E;
    [|reflexivity].
  apply andb_true_iff in E as [E1 E2].
  apply Nat.eqb_eq in E1. apply Nat.eqb_eq in E2.
  simpl. rewrite length_select by assumption. reflexivity.
Qed.

(** One step of shape inference: the next operator of the source against
    the next line of the shape function. *)
Ltac shape_step H :=
  match goal with
  | |- length <$> (?e ≫= _) = _ =>
      let x := fresh "x" in
      let E := fresh "E" in
      pose proof H as E; destruct e as [x|];
      unfold F.ge_scalar, F.abs, F.log, F.exp, F.relu, F.neg, F.add_scalar,
        F.sub_scalar, F.mul_scalar, F.rdiv_scalar in E;
      rewrite ?length_fmap in E; simpl in E |- *;
      rewrite <- E; simpl; [|reflexivity]
  end.

Ltac shape_last :=
  rewrite shape_where;
  unfold F.ge_scalar, F.abs, F.log, F.exp, F.relu, F.neg, F.add_scalar,
    F.sub_scalar, F.mul_scalar, F.rdiv_scalar;
  rewrite ?length_fmap; reflexivity.

Lemma f_shape_spec (T : BoxCoxTranform) (z : tensor) :
  length <$> f T z
  = f_shape (length (lambda_1 T)) (length (lambda_2 T)) (length z).
Proof.
  unfold f, f_shape, F.add, F.power, F.div.
  shape_step (shape_broadcast_like
                (F.ge_scalar (F.abs (lambda_1 T)) (tol_lambda_1 T)) z).
  shape_step (shape_broadcast Num.add z (lambda_2 T)).
  shape_step (shape_broadcast Num.pow x0 (lambda_1 T)).
  shape_step (shape_broadcast Num.div (F.sub_scalar x1 1) (lambda_1 T)).
  shape_last.
Qed.

Lemma f_inv_shape_spec (T : BoxCoxTranform) (y : tensor) :
  length <$> f_inv T y
  = f_inv_shape (length (lambda_1 T)) (length (lambda_2 T)) (length y).
Proof.
  unfold f_inv, f_inv_shape, F.mul, F.power, F.sub.
  shape_step (shape_broadcast Num.mul y (lambda_1 T)).
  shape_step (shape_broadcast Num.pow (F.relu (F.add_scalar x 1))
                (F.rdiv_scalar 1 (lambda_1 T))).
  shape_step (shape_broadcast Num.sub x0 (lambda_2 T)).
  shape_step (shape_broadcast Num.sub (F.exp y) (lambda_2 T)).
  shape_last.
Qed.

Lemma log_abs_det_jac_shape_spec (T : BoxCoxTranform) (z : tensor) :
  length <$> log_abs_det_jac T z
  = log_abs_det_jac_shape (length (lambda_1 T)) (length (lambda_2 T))
      (length z).
Proof.
  unfold log_abs_det_jac, log_abs_det_jac_shape, F.add, F.mul.
  shape_step (shape_broadcast Num.add z (lambda_2 T)).
  shape_step (shape_broadcast Num.mul (F.log x)
                (F.sub_scalar (lambda_1 T) 1)).
  shape_last.
Qed.

Lemma is_Some_shape (o : option tensor) : is_Some o <-> is_Some (length <$> o).
Proof. destruct o; simpl; split; intros [? ?]; eauto; discriminate. Qed.

(** Decides a statement on extents by the cases of the comparisons in it. *)
Ltac shape_cases :=
  unfold f_shape, f_inv_shape, log_abs_det_jac_shape, bshape, like_shape,
    where_shape, broadcastable;
  cbn -[Nat.eqb];
  repeat match goal with
    | |- context [(?a =? ?b)%nat] =>
        destruct (Nat.eqb_spec a b); cbn -[Nat.eqb]; try lia
    end.

Lemma f_shape_Some (m k n : nat) :
  is_Some (f_shape m k n) <-> (m = n \/ m = 1%nat) /\ (k = n \/ k = 1%nat).
Proof.
  split.
  - intros [r H]. revert H. shape_cases; intros H; try discriminate; lia.
  - intros H. shape_cases; eauto.
Qed.

Lemma f_inv_shape_Some (m k n : nat) :
  is_Some (f_inv_shape m k n)
  <-> (m = n /\ (k = n \/ k = 1%nat)) \/ (n = 1%nat /\ k = m).
Proof.
  split.
  - intros [r H]. revert H. shape_cases; intros H; try discriminate; lia.
  - intros H. shape_cases; eauto.
Qed.

Lemma log_abs_det_jac_shape_Some (m k n : nat) :
  is_Some (log_abs_det_jac_shape m k n)
  <-> (m = n /\ (k = n \/ k = 1%nat)) \/ (n = 1%nat /\ k = m).
Proof.
  split.
  - intros [r H]. revert H. shape_cases; intros H; try discriminate; lia.
  - intros H. shape_cases; eauto.
Qed.

Lemma shape_None (o : option tensor) : length <$> o = None -> o = None.
Proof. destruct o; [discriminate | reflexivity]. Qed.

Lemma not_Some_None (o : option nat) : ~ is_Some o -> o = None.
Proof. destruct o; [intros H; exfalso; eauto | reflexivity]. Qed.

(** X1. [f] raises no shape error exactly when [lambda_1] and [lambda_2]
    both broadcast to the shape of [z]: each has the extent of [z] or
    extent one. *)
Theorem f_succeeds_iff (T : BoxCoxTranform) (z : tensor) :
  is_Some (f T z)
  <-> broadcastable (lambda_1 T) z /\ broadcastable (lambda_2 T) z.
Proof.
  rewrite is_Some_shape, f_shape_spec. apply f_shape_Some.
Qed.

(** X2. [f_inv] raises no shape error exactly when [lambda_1] has the shape
    of [y] and [lambda_2] broadcasts to it, or [y] has one element and
    [lambda_1] and [lambda_2] have one shape. *)
Theorem f_inv_succeeds_iff (T : BoxCoxTranform) (y : tensor) :
  is_Some (f_inv T y)
  <-> (length (lambda_1 T) = length y /\ broadcastable (lambda_2 T) y) \/
      (length y = 1%nat /\ length (lambda_2 T) = length (lambda_1 T)).
Proof.
  rewrite is_Some_shape, f_inv_shape_spec. apply f_inv_shape_Some.
Qed.

(** X3. [log_abs_det_jac] raises no shape error under the same condition
    as [f_inv]. *)
Theorem log_abs_det_jac_succeeds_iff (T : BoxCoxTranform) (z : tensor) :
  is_Some (log_abs_det_jac T z)
  <-> (length (lambda_1 T) = length z /\ broadcastable (lambda_2 T) z) \/
      (length z = 1%nat /\ length (lambda_2 T) = length (lambda_1 T)).
Proof.
  rewrite is_Some_shape, log_abs_det_jac_shape_spec.
  apply log_abs_det_jac_shape_Some.
Qed.

(** X4. A [lambda_1] of one element against a longer input: [f] broadcasts
    it (its condition goes through [broadcast_like]), while [f_inv] and
    [log_abs_det_jac], which hand the condition to the select as it is,
    raise a shape error. *)
Theorem scalar_lambda_1_shapes (T : BoxCoxTranform) (z : tensor) :
  length (lambda_1 T) = 1%nat -> (2 <= length z)%nat ->
  broadcastable (lambda_2 T) z ->
  is_Some (f T z) /\ f_inv T z = None /\ log_abs_det_jac T z = None.
Proof.
  intros H1 Hz H2. unfold broadcastable in H2. repeat split.
  - rewrite is_Some_shape, f_shape_spec. apply f_shape_Some. lia.
  - apply shape_None. rewrite f_inv_shape_spec. apply not_Some_None.
    rewrite f_inv_shape_Some. lia.
  - apply shape_None. rewrite log_abs_det_jac_shape_spec.
    apply not_Some_None. rewrite log_abs_det_jac_shape_Some. lia.
Qed.

Lemma scalar_lambda_1_shapes_witness :
  let T := {| lambda_1 := [Fin 2]; lambda_2 := [Fin 1];
              tol_lambda_1 := default_tol |} in
  is_Some (f T [Fin 3; Fin 4]) /\
  f_inv T [Fin 3; Fin 4] = None /\
  log_abs_det_jac T [Fin 3; Fin 4] = None.
Proof.
  apply (scalar_lambda_1_shapes
           {| lambda_1 := [Fin 2]; lambda_2 := [Fin 1];
              tol_lambda_1 := default_tol |} [Fin 3; Fin 4]).
  - reflexivity.
  - simpl. lia.
  - right. reflexivity.
Defined.

(** ** Real parameters of the shape of the input *)

Section RealParameters.

Variables (tol : R) (l1s l2s : list R).

Lemma forward_params (z : tensor) :
  length l1s = length z -> length l2s = length z ->
  exists out,
    f (Build_BoxCoxTranform (reals l1s) (reals l2s) tol) z = Some out /\
    length out = length z /\
    forall i zi a b,
      z !! i = Some zi -> l1s !! i = Some a -> l2s !! i = Some b ->
      out !! i = Some (forward_elem tol (Fin a) (Fin b) zi).
Proof.
  intros L1 L2.
  destruct (forward_lookup (Build_BoxCoxTranform (reals l1s) (reals l2s) tol)
              z) as (out & Ho & Lo & E);
    [left; simpl; rewrite length_reals; exact L1
    |left; simpl; rewrite length_reals; exact L2|].
  exists out. split; [exact Ho|]. split; [exact Lo|].
  intros i zi a b Hz Ha Hb.
  assert (i < length z)%nat as Hi by (eapply lookup_lt_Some; exact Hz).
  apply E; [exact Hz| |]; simpl;
    rewrite bget_lookup by (rewrite length_reals; lia);
    rewrite lookup_reals; [rewrite Ha|rewrite Hb]; reflexivity.
Qed.

Lemma inverse_params (y : tensor) :
  length l1s = length y -> length l2s = length y ->
  exists out,
    f_inv (Build_BoxCoxTranform (reals l1s) (reals l2s) tol) y = Some out /\
    length out = length y /\
    forall i yi a b,
      y !! i = Some yi -> l1s !! i = Some a -> l2s !! i = Some b ->
      out !! i = Some (inverse_elem tol (Fin a) (Fin b) yi).
Proof.
  intros L1 L2.
  destruct (inverse_lookup (Build_BoxCoxTranform (reals l1s) (reals l2s) tol)
              y) as (out & Ho & Lo & E);
    [simpl; rewrite length_reals; exact L1
    |left; simpl; rewrite length_reals; exact L2|].
  exists out. split; [exact Ho|]. split; [exact Lo|].
  intros i yi a b Hy Ha Hb.
  assert (i < length y)%nat as Hi by (eapply lookup_lt_Some; exact Hy).
  apply E; [exact Hy| |]; simpl.
  - rewrite lookup_reals, Ha. reflexivity.
  - rewrite bget_lookup by (rewrite length_reals; lia).
    rewrite lookup_reals, Hb. reflexivity.
Qed.

Lemma jacobian_params (z : tensor) :
  length l1s = length z -> length l2s = length z ->
  exists out,
    log_abs_det_jac (Build_BoxCoxTranform (reals l1s) (reals l2s) tol) z
    = Some out /\
    length out = length z /\
    forall i zi a b,
      z !! i = Some zi -> l1s !! i = Some a -> l2s !! i = Some b ->
      out !! i = Some (jacobian_elem tol (Fin a) (Fin b) zi).
Proof.
  intros L1 L2.
  destruct (jacobian_lookup
              (Build_BoxCoxTranform (reals l1s) (reals l2s) tol) z)
    as (out & Ho & Lo & E);
    [simpl; rewrite length_reals; exact L1
    |left; simpl; rewrite length_reals; exact L2|].
  exists out. split; [exact Ho|]. split; [exact Lo|].
  intros i zi a b Hz Ha Hb.
  assert (i < length z)%nat as Hi by (eapply lookup_lt_Some; exact Hz).
  apply E; [exact Hz| |]; simpl.
  - rewrite lookup_reals, Ha. reflexivity.
  - rewrite bget_lookup by (rewrite length_reals; lia).
    rewrite lookup_reals, Hb. reflexivity.
Qed.

(** The three elements at a position in range. *)
Lemma elements_at (n i : nat) (zs : list R) :
  length l1s = n -> length l2s = n -> length zs = n -> (i < n)%nat ->
  exists z a b, zs !! i = Some z /\ l1s !! i = Some a /\ l2s !! i = Some b.
Proof.
  intros L1 L2 Lz Hi.
  destruct (lookup_lt_is_Some_2 zs i) as [z Ez]; [lia|].
  destruct (lookup_lt_is_Some_2 l1s i) as [a Ea]; [lia|].
  destruct (lookup_lt_is_Some_2 l2s i) as [b Eb]; [lia|].
  exists z, a, b. repeat split; assumption.
Qed.

End RealParameters.

(** ** Round trips on both branches *)

Lemma round_trip_log_elem (tol a b z : R) :
  0 < z + b -> Rabs a < tol ->
  inverse_elem tol (Fin a) (Fin b) (forward_elem tol (Fin a) (Fin b) (Fin z))
  = Fin z.
Proof.
  intros Hz Ht. rewrite forward_log, inverse_log by assumption.
  f_equal. rewrite exp_ln by exact Hz. lra.
Qed.

Lemma round_trip_any_elem (tol a b z : R) :
  0 < z + b -> (tol <= Rabs a -> a <> 0) ->
  inverse_elem tol (Fin a) (Fin b) (forward_elem tol (Fin a) (Fin b) (Fin z))
  = Fin z.
Proof.
  intros Hz Hne. destruct (Rle_dec tol (Rabs a)) as [Ht|Ht].
  - apply round_trip_elem; auto.
  - apply round_trip_log_elem; [exact Hz | lra].
Qed.

(** X5. Round trip, whichever branch each element takes: for real tensors
    of one shape with [z + lambda_2 > 0] at every element, and
    [lambda_1 <> 0] wherever the power branch is taken, [f] succeeds and
    [f_inv] of its result is [z].  On the log branch this is
    [exp(log(z + lambda_2)) - lambda_2]. *)
Theorem round_trip_mixed (tol : R) (l1s l2s zs : list R) :
  length l1s = length zs -> length l2s = length zs ->
  (forall i z a b,
      zs !! i = Some z -> l1s !! i = Some a -> l2s !! i = Some b ->
      0 < z + b /\ (tol <= Rabs a -> a <> 0)) ->
  let T := {| lambda_1 := reals l1s; lambda_2 := reals l2s;
              tol_lambda_1 := tol |} in
  exists y, f T (reals zs) = Some y /\ f_inv T y = Some (reals zs).
Proof.
  intros L1 L2 H T.
  destruct (forward_params tol l1s l2s (reals zs))
    as (y & Hy & Ly & Ey); rewrite ?length_reals; try assumption.
  exists y. split; [exact Hy|].
  rewrite length_reals in Ly.
  apply inverse_eq; simpl; rewrite ?length_reals; try lia.
  intros i yi fa fb Hyi Ha Hb.
  assert (i < length zs)%nat as Hi.
  { rewrite <- Ly. eapply lookup_lt_Some. exact Hyi. }
  destruct (elements_at l1s l2s (length zs) i zs L1 L2 eq_refl Hi)
    as (z & a & b & Ez & Ea & Eb).
  rewrite lookup_reals, Ea in Ha. rewrite lookup_reals, Eb in Hb.
  simpl in Ha, Hb. injection Ha as <-. injection Hb as <-.
  destruct (H i z a b Ez Ea Eb) as [Hz Hne].
  rewrite (Ey i (Fin z) a b) in Hyi;
    [| rewrite lookup_reals, Ez; reflexivity | exact Ea | exact Eb].
  injection Hyi as <-.
  rewrite round_trip_any_elem by assumption.
  rewrite lookup_reals, Ez. reflexivity.
Qed.

Lemma round_trip_mixed_witness :
  let T := {| lambda_1 := reals [2; 0]; lambda_2 := reals [1; 1];
              tol_lambda_1 := default_tol |} in
  exists y, f T (reals [3; 4]) = Some y /\ f_inv T y = Some (reals [3; 4]).
Proof.
  apply (round_trip_mixed default_tol [2; 0] [1; 1] [3; 4]);
    try reflexivity.
  intros [|[|i]] z a b Hz Ha Hb; simpl in Hz, Ha, Hb; try discriminate;
    injection Hz as <-; injection Ha as <-; injection Hb as <-.
  - split; [lra | intros _; lra].
  - split; [lra|]. unfold default_tol. rewrite Rabs_R0. intros Ht. lra.
Defined.

(** ** The forward map after the inverse *)

Lemma inverse_clamped (tol a b y : R) :
  y * a + 1 <= 0 -> tol <= Rabs a -> a <> 0 ->
  (0 < a -> inverse_elem tol (Fin a) (Fin b) (Fin y) = Fin (- b)) /\
  (a < 0 -> inverse_elem tol (Fin a) (Fin b) (Fin y) = PInf).
Proof.
  intros Hy Ht Ha.
  assert (inverse_elem tol (Fin a) (Fin b) (Fin y)
          = Num.sub (Num.pow (Fin 0) (Fin (1 / a))) (Fin b)) as E.
  { unfold inverse_elem. rewrite abs_ge_true by exact Ht.
    change (Num.add (Num.mul (Fin y) (Fin a)) (Fin 1)) with (Fin (y * a + 1)).
    rewrite relu_nonpos by exact Hy. rewrite div_nonzero by exact Ha.
    reflexivity. }
  split; intros Hs; rewrite E.
  - rewrite pow_zero_pos.
    + simpl. f_equal. lra.
    + unfold Rdiv. rewrite Rmult_1_l. apply Rinv_0_lt_compat. exact Hs.
  - rewrite pow_zero_neg; [reflexivity|].
    unfold Rdiv. rewrite Rmult_1_l. apply Rinv_lt_0_compat. exact Hs.
Qed.

(** The end of the range of [f] against the domain of [f_inv]. *)
Lemma range_end (a y : R) :
  a <> 0 -> (y + / a) * a = y * a + 1.
Proof. intros Ha. field. exact Ha. Qed.

Lemma range_clamp_inside (a y : R) :
  a <> 0 -> 0 < y * a + 1 -> range_clamp a y = y.
Proof.
  intros Ha Hy. unfold range_clamp.
  pose proof (range_end a y Ha) as E.
  destruct (Rlt_dec 0 a) as [Hs|Hs].
  - apply Rmax_left.
    assert (0 < / a) by (apply Rinv_0_lt_compat; exact Hs). nra.
  - apply Rmin_left.
    assert (/ a < 0) by (apply Rinv_lt_0_compat; lra). nra.
Qed.

Lemma range_clamp_outside (a y : R) :
  a <> 0 -> y * a + 1 <= 0 -> range_clamp a y = - / a.
Proof.
  intros Ha Hy. unfold range_clamp.
  pose proof (range_end a y Ha) as E.
  destruct (Rlt_dec 0 a) as [Hs|Hs].
  - apply Rmax_right.
    assert (0 < / a) by (apply Rinv_0_lt_compat; exact Hs). nra.
  - apply Rmin_right.
    assert (/ a < 0) by (apply Rinv_lt_0_compat; lra). nra.
Qed.

Lemma forward_at_range_end (tol a b : R) (x : num) :
  tol <= Rabs a -> a <> 0 ->
  (0 < a /\ x = Fin (- b)) \/ (a < 0 /\ x = PInf) ->
  forward_elem tol (Fin a) (Fin b) x = Fin (- / a).
Proof.
  intros Ht Ha Hx. unfold forward_elem. rewrite abs_ge_true by exact Ht.
  assert (Num.pow (Num.add x (Fin b)) (Fin a) = Fin 0) as ->.
  { destruct Hx as [[Hs ->]|[Hs ->]]; simpl.
    - unfold Num.pow_fin. real_cases. reflexivity.
    - real_cases. reflexivity. }
  simpl. real_cases. f_equal. field. exact Ha.
Qed.

Lemma forward_after_inverse (tol a b y : R) :
  (tol <= Rabs a -> a <> 0) ->
  forward_elem tol (Fin a) (Fin b) (inverse_elem tol (Fin a) (Fin b) (Fin y))
  = Fin (if Rle_dec tol (Rabs a) then range_clamp a y else y).
Proof.
  intros Hne. destruct (Rle_dec tol (Rabs a)) as [Ht|Ht].
  - specialize (Hne Ht). destruct (Rlt_dec 0 (y * a + 1)) as [Hy|Hy].
    + rewrite inverse_power by assumption.
      assert (0 < Rpower (y * a + 1) (1 / a)) as Hp
        by (unfold Rpower; apply exp_pos).
      rewrite forward_power; [| lra | exact Ht | exact Hne].
      rewrite range_clamp_inside by assumption. f_equal.
      replace (Rpower (y * a + 1) (1 / a) - b + b)
        with (Rpower (y * a + 1) (1 / a)) by lra.
      rewrite Rpower_mult.
      replace (1 / a * a) with 1 by (field; exact Hne).
      rewrite Rpower_1 by exact Hy. field. exact Hne.
    + assert (y * a + 1 <= 0) as Hy' by lra.
      rewrite range_clamp_outside by assumption.
      destruct (inverse_clamped tol a b y Hy' Ht Hne) as [Hpos Hneg].
      apply forward_at_range_end; try assumption.
      destruct (Rlt_dec 0 a) as [Hs|Hs].
      * left. split; [exact Hs | apply Hpos; exact Hs].
      * right. assert (a < 0) as Hs' by lra.
        split; [exact Hs' | apply Hneg; exact Hs'].
  - rewrite inverse_log by lra.
    rewrite forward_log; [| pose proof (exp_pos y); lra | lra].
    f_equal. replace (exp y - b + b) with (exp y) by lra. apply ln_exp.
Qed.

(** X6. The forward map after the inverse, for real tensors of one shape
    with [lambda_1 <> 0] wherever the power branch is taken: both calls
    succeed, and [f(f_inv(y))] is [y] on the log branch and, on the power
    branch, [y] cut at the end [-1/lambda_1] of the range of [f]:
    [max(y, -1/lambda_1)] for a positive [lambda_1], [min(y, -1/lambda_1)]
    for a negative one.  In particular it is [y] wherever
    [y * lambda_1 + 1 > 0]. *)
Theorem f_after_f_inv (tol : R) (l1s l2s ys : list R) :
  length l1s = length ys -> length l2s = length ys ->
  (forall i a, l1s !! i = Some a -> tol <= Rabs a -> a <> 0) ->
  let T := {| lambda_1 := reals l1s; lambda_2 := reals l2s;
              tol_lambda_1 := tol |} in
  exists x out,
    f_inv T (reals ys) = Some x /\ f T x = Some out /\
    length out = length ys /\
    forall i y a,
      ys !! i = Some y -> l1s !! i = Some a ->
      (tol <= Rabs a -> out !! i = Some (Fin (range_clamp a y))) /\
      (tol <= Rabs a -> 0 < y * a + 1 -> out !! i = Some (Fin y)) /\
      (Rabs a < tol -> out !! i = Some (Fin y)).
Proof.
  intros L1 L2 Hne T.
  destruct (inverse_params tol l1s l2s (reals ys))
    as (x & Hx & Lx & Ex); rewrite ?length_reals; try assumption.
  rewrite length_reals in Lx.
  destruct (forward_params tol l1s l2s x)
    as (out & Ho & Lo & Eo); try lia.
  exists x, out. split; [exact Hx|]. split; [exact Ho|].
  split; [lia|].
  intros i y a Ey Ea.
  assert (i < length ys)%nat as Hi by (eapply lookup_lt_Some; exact Ey).
  destruct (lookup_lt_is_Some_2 l2s i) as [b Eb]; [lia|].
  assert (out !! i
          = Some (Fin (if Rle_dec tol (Rabs a)
                       then range_clamp a y else y))) as E.
  { rewrite <- (forward_after_inverse tol a b y (Hne i a Ea)).
    apply Eo; try assumption.
    apply Ex; try assumption. rewrite lookup_reals, Ey. reflexivity. }
  rewrite E. repeat split.
  - intros Ht. destruct (Rle_dec tol (Rabs a)); [reflexivity|contradiction].
  - intros Ht Hy. destruct (Rle_dec tol (Rabs a)); [|contradiction].
    rewrite range_clamp_inside; [reflexivity | exact (Hne i a Ea Ht)
                                | exact Hy].
  - intros Ht. destruct (Rle_dec tol (Rabs a)); [lra|reflexivity].
Qed.

Lemma f_after_f_inv_witness :
  let T := {| lambda_1 := reals [2; -1; 0]; lambda_2 := reals [1; 1; 1];
              tol_lambda_1 := default_tol |} in
  exists x out,
    f_inv T (reals [-3; 5; 7]) = Some x /\ f T x = Some out /\
    length out = 3%nat /\
    forall i y a,
      [-3; 5; 7] !! i = Some y -> [2; -1; 0] !! i = Some a ->
      (default_tol <= Rabs a -> out !! i = Some (Fin (range_clamp a y))) /\
      (default_tol <= Rabs a -> 0 < y * a + 1 -> out !! i = Some (Fin y)) /\
      (Rabs a < default_tol -> out !! i = Some (Fin y)).
Proof.
  apply (f_after_f_inv default_tol [2; -1; 0] [1; 1; 1] [-3; 5; 7]);
    try reflexivity.
  intros [|[|[|i]]] a Ha Ht; simpl in Ha; try discriminate;
    injection Ha as <-; try lra.
  unfold default_tol in Ht. rewrite Rabs_R0 in Ht. lra.
Defined.

(** ** Order and finiteness of the inverse *)

Lemma inverse_zero_lambda (tol b y : R) :
  tol <= 0 -> inverse_elem tol (Fin 0) (Fin b) (Fin y) = Fin (1 - b).
Proof.
  intros Ht. unfold inverse_elem.
  rewrite abs_ge_true by (rewrite Rabs_R0; exact Ht).
  rewrite base_clamp.
  assert (clamp y 0 = 1) as -> by (unfold clamp; rewrite Rmax_left; lra).
  simpl. unfold Num.signed_inf. real_cases. simpl. rewrite Rabs_R1.
  real_cases. reflexivity.
Qed.

Lemma inverse_power_clamp (tol a b y : R) :
  tol <= Rabs a -> a <> 0 ->
  inverse_elem tol (Fin a) (Fin b) (Fin y)
  = Num.sub (Num.pow (Fin (clamp y a)) (Fin (1 / a))) (Fin b).
Proof.
  intros Ht Ha. unfold inverse_elem. rewrite abs_ge_true by exact Ht.
  rewrite base_clamp, div_nonzero by exact Ha. reflexivity.
Qed.

Lemma clamp_nonneg (y a : R) : 0 <= clamp y a.
Proof. unfold clamp. apply Rmax_r. Qed.

Lemma clamp_increasing (y1 y2 a : R) :
  y1 <= y2 -> 0 < a -> clamp y1 a <= clamp y2 a.
Proof.
  intros Hy Ha. unfold clamp. apply Rle_max_compat_r. nra.
Qed.

Lemma clamp_decreasing (y1 y2 a : R) :
  y1 <= y2 -> a < 0 -> clamp y2 a <= clamp y1 a.
Proof.
  intros Hy Ha. unfold clamp. apply Rle_max_compat_r. nra.
Qed.

Lemma Rpower_base_nonincreasing (x1 x2 e : R) :
  0 < x1 -> x1 <= x2 -> e < 0 -> Rpower x2 e <= Rpower x1 e.
Proof.
  intros H1 H12 He. destruct H12 as [Hlt| ->]; [|lra].
  left. apply Rpower_base_decreasing; assumption.
Qed.

Lemma inverse_monotone (tol a b y1 y2 : R) :
  y1 <= y2 ->
  num_le (inverse_elem tol (Fin a) (Fin b) (Fin y1))
         (inverse_elem tol (Fin a) (Fin b) (Fin y2)).
Proof.
  intros Hy. destruct (abs_ge_cases a tol) as [[Ht _]|[Ht _]].
  - destruct (Req_dec_T a 0) as [->|Ha].
    { rewrite Rabs_R0 in Ht. rewrite !inverse_zero_lambda by exact Ht.
      simpl. lra. }
    rewrite !inverse_power_clamp by assumption.
    pose proof (clamp_nonneg y1 a) as N1.
    pose proof (clamp_nonneg y2 a) as N2.
    destruct (Rlt_dec 0 a) as [Hs|Hs].
    + assert (0 < 1 / a) as He.
      { unfold Rdiv. rewrite Rmult_1_l. apply Rinv_0_lt_compat. exact Hs. }
      pose proof (clamp_increasing y1 y2 a Hy Hs) as Hc.
      destruct (Req_dec_T (clamp y1 a) 0) as [E1|E1].
      * rewrite E1, pow_zero_pos by exact He.
        destruct (Req_dec_T (clamp y2 a) 0) as [E2|E2].
        -- rewrite E2, pow_zero_pos by exact He. simpl. lra.
        -- rewrite pow_pos by lra. simpl.
           assert (0 < Rpower (clamp y2 a) (1 / a))
             by (unfold Rpower; apply exp_pos).
           lra.
      * rewrite !pow_pos by lra. simpl.
        assert (Rpower (clamp y1 a) (1 / a) <= Rpower (clamp y2 a) (1 / a))
          by (apply Rle_Rpower_l; lra).
        lra.
    + assert (a < 0) as Hs' by lra.
      assert (1 / a < 0) as He.
      { unfold Rdiv. rewrite Rmult_1_l. apply Rinv_lt_0_compat. exact Hs'. }
      pose proof (clamp_decreasing y1 y2 a Hy Hs') as Hc.
      destruct (Req_dec_T (clamp y2 a) 0) as [E2|E2].
      * rewrite E2, (pow_zero_neg (1 / a)) by exact He.
        destruct (Req_dec_T (clamp y1 a) 0) as [E1|E1].
        -- rewrite E1, pow_zero_neg by exact He. exact I.
        -- rewrite pow_pos by lra. exact I.
      * rewrite !pow_pos by lra. simpl.
        assert (Rpower (clamp y1 a) (1 / a) <= Rpower (clamp y2 a) (1 / a))
          by (apply Rpower_base_nonincreasing; lra).
        lra.
  - rewrite !inverse_log by exact Ht. simpl.
    destruct Hy as [Hlt| ->]; [|lra].
    pose proof (exp_increasing y1 y2 Hlt). lra.
Qed.

(** X7. The inverse preserves order, clamp included: for real tensors of
    one shape and two inputs with [y1 <= y2] at every element, [f_inv]
    succeeds on both and [f_inv(y1) <= f_inv(y2)] at every element, in the
    order of the extended real line ([+inf] is the value at the clamp for a
    negative [lambda_1]).  There is no condition on [lambda_1] or on the
    tolerance. *)
Theorem f_inv_monotone (tol : R) (l1s l2s y1s y2s : list R) :
  length l1s = length y1s -> length l2s = length y1s ->
  length y2s = length y1s ->
  (forall i y1 y2, y1s !! i = Some y1 -> y2s !! i = Some y2 -> y1 <= y2) ->
  let T := {| lambda_1 := reals l1s; lambda_2 := reals l2s;
              tol_lambda_1 := tol |} in
  exists o1 o2,
    f_inv T (reals y1s) = Some o1 /\ f_inv T (reals y2s) = Some o2 /\
    length o1 = length y1s /\ length o2 = length y1s /\
    forall i v1 v2, o1 !! i = Some v1 -> o2 !! i = Some v2 -> num_le v1 v2.
Proof.
  intros L1 L2 L3 H T.
  destruct (inverse_params tol l1s l2s (reals y1s))
    as (o1 & Ho1 & Lo1 & E1); rewrite ?length_reals; try assumption.
  destruct (inverse_params tol l1s l2s (reals y2s))
    as (o2 & Ho2 & Lo2 & E2); rewrite ?length_reals; try lia.
  rewrite length_reals in Lo1, Lo2.
  exists o1, o2. repeat split; try assumption; try lia.
  intros i v1 v2 Hv1 Hv2.
  assert (i < length y1s)%nat as Hi.
  { rewrite <- Lo1. eapply lookup_lt_Some. exact Hv1. }
  destruct (elements_at l1s l2s (length y1s) i y1s L1 L2 eq_refl Hi)
    as (y1 & a & b & Ey1 & Ea & Eb).
  destruct (lookup_lt_is_Some_2 y2s i) as [y2 Ey2]; [lia|].
  rewrite (E1 i (Fin y1) a b) in Hv1;
    [| rewrite lookup_reals, Ey1; reflexivity | exact Ea | exact Eb].
  rewrite (E2 i (Fin y2) a b) in Hv2;
    [| rewrite lookup_reals, Ey2; reflexivity | exact Ea | exact Eb].
  injection Hv1 as <-. injection Hv2 as <-.
  apply inverse_monotone. exact (H i y1 y2 Ey1 Ey2).
Qed.

Lemma f_inv_monotone_witness :
  let T := {| lambda_1 := reals [2; -1]; lambda_2 := reals [1; 1];
              tol_lambda_1 := default_tol |} in
  exists o1 o2,
    f_inv T (reals [-3; 0]) = Some o1 /\ f_inv T (reals [4; 5]) = Some o2 /\
    length o1 = 2%nat /\ length o2 = 2%nat /\
    forall i v1 v2, o1 !! i = Some v1 -> o2 !! i = Some v2 -> num_le v1 v2.
Proof.
  apply (f_inv_monotone default_tol [2; -1] [1; 1] [-3; 0] [4; 5]);
    try reflexivity.
  intros [|[|i]] y1 y2 H1 H2; simpl in H1, H2; try discriminate;
    injection H1 as <-; injection H2 as <-; lra.
Defined.

Lemma inverse_finite_iff (tol a b y : R) :
  (is_finite (inverse_elem tol (Fin a) (Fin b) (Fin y))
   <-> ~ (tol <= Rabs a /\ a < 0 /\ y * a + 1 <= 0)) /\
  (~ is_finite (inverse_elem tol (Fin a) (Fin b) (Fin y)) ->
   inverse_elem tol (Fin a) (Fin b) (Fin y) = PInf).
Proof.
  assert (forall r, is_finite (Fin r)) as Hfin
    by (intros r; exists r; reflexivity).
  assert (~ is_finite PInf) as Hinf by (intros [r Hr]; discriminate).
  destruct (abs_ge_cases a tol) as [[Ht _]|[Ht _]].
  - destruct (Req_dec_T a 0) as [->|Ha].
    { rewrite Rabs_R0 in Ht. rewrite inverse_zero_lambda by exact Ht.
      split; [split; [intros _; lra | intros _; apply Hfin]
             | intros N; exfalso; apply N, Hfin]. }
    destruct (Rlt_dec 0 (y * a + 1)) as [Hy|Hy].
    { rewrite inverse_power by assumption.
      split; [split; [intros _; lra | intros _; apply Hfin]
             | intros N; exfalso; apply N, Hfin]. }
    assert (y * a + 1 <= 0) as Hy' by lra.
    destruct (inverse_clamped tol a b y Hy' Ht Ha) as [Hpos Hneg].
    destruct (Rlt_dec 0 a) as [Hs|Hs].
    + rewrite Hpos by exact Hs.
      split; [split; [intros _; lra | intros _; apply Hfin]
             | intros N; exfalso; apply N, Hfin].
    + rewrite Hneg by lra.
      split; [split; [intros F; contradiction | intros N; exfalso; apply N; lra]
             | reflexivity].
  - rewrite inverse_log by exact Ht.
    split; [split; [intros _; lra | intros _; apply Hfin]
           | intros N; exfalso; apply N, Hfin].
Qed.

(** X8. Where the inverse is not a real number: for real tensors of one
    shape and every real input, an element of [f_inv(y)] is a real number
    unless it is on the power branch with [lambda_1 < 0] and
    [y * lambda_1 + 1 <= 0] (the clamp), and there it is [+inf].  So with
    [lambda_1 > 0], or on the log branch, [f_inv] is real for every [y]. *)
Theorem f_inv_finite_iff (tol : R) (l1s l2s ys : list R) :
  length l1s = length ys -> length l2s = length ys ->
  let T := {| lambda_1 := reals l1s; lambda_2 := reals l2s;
              tol_lambda_1 := tol |} in
  exists out, f_inv T (reals ys) = Some out /\ length out = length ys /\
    forall i v y a,
      out !! i = Some v -> ys !! i = Some y -> l1s !! i = Some a ->
      (is_finite v <-> ~ (tol <= Rabs a /\ a < 0 /\ y * a + 1 <= 0)) /\
      (~ is_finite v -> v = PInf).
Proof.
  intros L1 L2 T.
  destruct (inverse_params tol l1s l2s (reals ys))
    as (out & Ho & Lo & E); rewrite ?length_reals; try assumption.
  rewrite length_reals in Lo.
  exists out. split; [exact Ho|]. split; [exact Lo|].
  intros i v y a Hv Ey Ea.
  assert (i < length ys)%nat as Hi by (eapply lookup_lt_Some; exact Ey).
  destruct (lookup_lt_is_Some_2 l2s i) as [b Eb]; [lia|].
  rewrite (E i (Fin y) a b) in Hv;
    [| rewrite lookup_reals, Ey; reflexivity | exact Ea | exact Eb].
  injection Hv as <-. apply inverse_finite_iff.
Qed.

Lemma f_inv_finite_iff_witness :
  let T := {| lambda_1 := reals [2; -1]; lambda_2 := reals [1; 1];
              tol_lambda_1 := default_tol |} in
  exists out, f_inv T (reals [-3; 5]) = Some out /\ length out = 2%nat /\
    forall i v y a,
      out !! i = Some v -> [-3; 5] !! i = Some y -> [2; -1] !! i = Some a ->
      (is_finite v
       <-> ~ (default_tol <= Rabs a /\ a < 0 /\ y * a + 1 <= 0)) /\
      (~ is_finite v -> v = PInf).
Proof.
  apply (f_inv_finite_iff default_tol [2; -1] [1; 1] [-3; 5]); reflexivity.
Defined.

(** ** The range of the forward map *)

Lemma forward_in_inverse_domain (tol a b z : R) :
  0 < z + b -> (tol <= Rabs a -> a <> 0) ->
  exists r,
    forward_elem tol (Fin a) (Fin b) (Fin z) = Fin r /\
    (tol <= Rabs a -> r * a + 1 = Rpower (z + b) a /\ 0 < r * a + 1) /\
    (Rabs a < tol -> r = ln (z + b)).
Proof.
  intros Hz Hne. destruct (Rle_dec tol (Rabs a)) as [Ht|Ht].
  - specialize (Hne Ht). rewrite forward_power by assumption.
    eexists. split; [reflexivity|]. split; [|intros; lra].
    intros _.
    assert ((Rpower (z + b) a - 1) / a * a + 1 = Rpower (z + b) a) as E
      by (field; exact Hne).
    split; [exact E|]. rewrite E. unfold Rpower. apply exp_pos.
  - rewrite forward_log by (try assumption; lra).
    eexists. split; [reflexivity|]. split; [intros; lra | reflexivity].
Qed.

(** X9. The forward map lands inside the domain of the inverse: for real
    tensors of one shape with [z + lambda_2 > 0] at every element and
    [lambda_1 <> 0] wherever the power branch is taken, every element of
    [f(z)] is a real number [r], and on the power branch
    [r * lambda_1 + 1 = (z + lambda_2)^lambda_1 > 0]: the clamp of [f_inv]
    is never active on an output of [f]. *)
Theorem f_lands_in_inverse_domain (tol : R) (l1s l2s zs : list R) :
  length l1s = length zs -> length l2s = length zs ->
  (forall i z a b,
      zs !! i = Some z -> l1s !! i = Some a -> l2s !! i = Some b ->
      0 < z + b /\ (tol <= Rabs a -> a <> 0)) ->
  let T := {| lambda_1 := reals l1s; lambda_2 := reals l2s;
              tol_lambda_1 := tol |} in
  exists out, f T (reals zs) = Some out /\ length out = length zs /\
    forall i v z a b,
      out !! i = Some v ->
      zs !! i = Some z -> l1s !! i = Some a -> l2s !! i = Some b ->
      exists r, v = Fin r /\
        (tol <= Rabs a -> r * a + 1 = Rpower (z + b) a /\ 0 < r * a + 1).
Proof.
  intros L1 L2 H T.
  destruct (forward_params tol l1s l2s (reals zs))
    as (out & Ho & Lo & E); rewrite ?length_reals; try assumption.
  rewrite length_reals in Lo.
  exists out. split; [exact Ho|]. split; [exact Lo|].
  intros i v z a b Hv Ez Ea Eb.
  rewrite (E i (Fin z) a b) in Hv;
    [| rewrite lookup_reals, Ez; reflexivity | exact Ea | exact Eb].
  injection Hv as <-.
  destruct (H i z a b Ez Ea Eb) as [Hz Hne].
  destruct (forward_in_inverse_domain tol a b z Hz Hne) as (r & Er & Hp & _).
  exists r. split; [exact Er | exact Hp].
Qed.

Lemma f_lands_in_inverse_domain_witness :
  let T := {| lambda_1 := reals [11 / 10]; lambda_2 := reals [0];
              tol_lambda_1 := default_tol |} in
  exists out, f T (reals [1 / 2]) = Some out /\ length out = 1%nat /\
    forall i v z a b,
      out !! i = Some v ->
      [1 / 2] !! i = Some z -> [11 / 10] !! i = Some a ->
      [0] !! i = Some b ->
      exists r, v = Fin r /\
        (default_tol <= Rabs a ->
         r * a + 1 = Rpower (z + b) a /\ 0 < r * a + 1).
Proof.
  apply (f_lands_in_inverse_domain default_tol [11 / 10] [0] [1 / 2]);
    try reflexivity.
  intros [|i] z a b Hz Ha Hb; simpl in Hz, Ha, Hb; try discriminate.
  injection Hz as <-. injection Ha as <-. injection Hb as <-.
  split; [lra | intros _; lra].
Defined.

(** ** The two branches agree at the switch

    Below the tolerance the code replaces the power forms by the log forms.
    The theorems of this section bound the jump that this makes: the power
    form tends to the log form when [lambda_1] tends to zero. *)

Lemma f_singleton (tol : R) (a b zi : num) :
  f {| lambda_1 := [a]; lambda_2 := [b]; tol_lambda_1 := tol |} [zi]
  = Some [forward_elem tol a b zi].
Proof.
  apply forward_eq; try reflexivity.
  intros [|i] zi' a' b' Hz Ha Hb; simpl in Hz, Ha, Hb; try discriminate.
  simplify_eq. reflexivity.
Qed.

Lemma f_inv_singleton (tol : R) (a b yi : num) :
  f_inv {| lambda_1 := [a]; lambda_2 := [b]; tol_lambda_1 := tol |} [yi]
  = Some [inverse_elem tol a b yi].
Proof.
  apply inverse_eq; try reflexivity.
  intros [|i] yi' a' b' Hy Ha Hb; simpl in Hy, Ha, Hb; try discriminate.
  simplify_eq. reflexivity.
Qed.

Lemma log_abs_det_jac_singleton (tol : R) (a b zi : num) :
  log_abs_det_jac {| lambda_1 := [a]; lambda_2 := [b]; tol_lambda_1 := tol |}
    [zi]
  = Some [jacobian_elem tol a b zi].
Proof.
  apply jacobian_eq; try reflexivity.
  intros [|i] zi' a' b' Hz Ha Hb; simpl in Hz, Ha, Hb; try discriminate.
  simplify_eq. reflexivity.
Qed.

(** [(x^a - 1)/a] tends to [log x] when [a] tends to zero: the derivative
    of [a |-> x^a] at zero. *)
Lemma power_derivative_at_zero (x : R) :
  0 < x -> derivable_pt_lim (fun a => Rpower x a) 0 (ln x).
Proof.
  intros Hx. unfold Rpower.
  assert (derivable_pt_lim (fun a => a * ln x) 0 (ln x)) as D1.
  { pose proof (derivable_pt_lim_scal_right id 0 1 (ln x)
                  (derivable_pt_lim_id 0)) as D.
    rewrite Rmult_1_l in D. exact D. }
  pose proof (derivable_pt_lim_comp (fun a => a * ln x) exp 0 (ln x)
                (exp (0 * ln x)) D1 (derivable_pt_lim_exp (0 * ln x))) as D.
  replace (exp (0 * ln x) * ln x) with (ln x) in D.
  - exact D.
  - rewrite Rmult_0_l, exp_0. lra.
Qed.

(** X10. Forward map, agreement of the branches: for [z + lambda_2 > 0] and
    every [eps > 0] there is a [delta > 0] such that, for every
    [lambda_1 <> 0] with [|lambda_1| < delta] on the power branch, [f(z)]
    is a real number within [eps] of [log(z + lambda_2)], the value of the
    log branch. *)
Theorem f_branches_agree (b z eps : R) :
  0 < z + b -> 0 < eps ->
  exists delta, 0 < delta /\
    forall a tol,
      a <> 0 -> Rabs a < delta ->
      (tol <= Rabs a ->
       exists r,
         f {| lambda_1 := [Fin a]; lambda_2 := [Fin b];
              tol_lambda_1 := tol |} [Fin z] = Some [Fin r] /\
         Rabs (r - ln (z + b)) < eps) /\
      (Rabs a < tol ->
       f {| lambda_1 := [Fin a]; lambda_2 := [Fin b];
            tol_lambda_1 := tol |} [Fin z] = Some [Fin (ln (z + b))]).
Proof.
  intros Hz Heps.
  destruct (power_derivative_at_zero (z + b) Hz eps Heps) as [delta Hd].
  exists delta. split; [apply cond_pos|].
  intros a tol Ha Hlt. split.
  - intros Ht. exists ((Rpower (z + b) a - 1) / a). split.
    + rewrite f_singleton, forward_power by assumption. reflexivity.
    + specialize (Hd a Ha Hlt).
      rewrite Rplus_0_l, (Rpower_O (z + b) Hz) in Hd. exact Hd.
  - intros Ht. rewrite f_singleton, forward_log by assumption. reflexivity.
Qed.

Lemma f_branches_agree_witness :
  exists delta, 0 < delta /\
    forall a tol,
      a <> 0 -> Rabs a < delta ->
      (tol <= Rabs a ->
       exists r,
         f {| lambda_1 := [Fin a]; lambda_2 := [Fin 1];
              tol_lambda_1 := tol |} [Fin 3] = Some [Fin r] /\
         Rabs (r - ln (3 + 1)) < 1 / 1000) /\
      (Rabs a < tol ->
       f {| lambda_1 := [Fin a]; lambda_2 := [Fin 1];
            tol_lambda_1 := tol |} [Fin 3] = Some [Fin (ln (3 + 1))]).
Proof. apply (f_branches_agree 1 3 (1 / 1000)); lra. Defined.

(** X11. Jacobian, agreement of the branches: for [z + lambda_2 > 0] and
    every [eps > 0] there is a [delta > 0] such that, for [|lambda_1| <
    delta] on the power branch, [log_abs_det_jac(z)] is a real number
    within [eps] of [-log(z + lambda_2)], the value of the log branch. *)
Theorem log_abs_det_jac_branches_agree (b z eps : R) :
  0 < z + b -> 0 < eps ->
  exists delta, 0 < delta /\
    forall a tol,
      Rabs a < delta ->
      (tol <= Rabs a ->
       exists r,
         log_abs_det_jac {| lambda_1 := [Fin a]; lambda_2 := [Fin b];
                            tol_lambda_1 := tol |} [Fin z] = Some [Fin r] /\
         Rabs (r - - ln (z + b)) < eps) /\
      (Rabs a < tol ->
       log_abs_det_jac {| lambda_1 := [Fin a]; lambda_2 := [Fin b];
                          tol_lambda_1 := tol |} [Fin z]
       = Some [Fin (- ln (z + b))]).
Proof.
  intros Hz Heps.
  set (L := Rabs (ln (z + b))).
  assert (0 <= L) as HL by apply Rabs_pos.
  exists (eps / (L + 1)).
  assert (0 < eps / (L + 1)) as Hd by (apply Rdiv_lt_0_compat; lra).
  split; [exact Hd|].
  intros a tol Hlt. split.
  - intros Ht. exists (ln (z + b) * (a - 1)). split.
    + rewrite log_abs_det_jac_singleton, jacobian_power by assumption.
      reflexivity.
    + replace (ln (z + b) * (a - 1) - - ln (z + b)) with (ln (z + b) * a)
        by lra.
      rewrite Rabs_mult. fold L.
      assert (eps / (L + 1) * (L + 1) = eps) as E by (field; lra).
      pose proof (Rabs_pos a). nra.
  - intros Ht.
    rewrite log_abs_det_jac_singleton, jacobian_log by assumption.
    reflexivity.
Qed.

Lemma log_abs_det_jac_branches_agree_witness :
  exists delta, 0 < delta /\
    forall a tol,
      Rabs a < delta ->
      (tol <= Rabs a ->
       exists r,
         log_abs_det_jac {| lambda_1 := [Fin a]; lambda_2 := [Fin 1];
                            tol_lambda_1 := tol |} [Fin 3] = Some [Fin r] /\
         Rabs (r - - ln (3 + 1)) < 1 / 1000) /\
      (Rabs a < tol ->
       log_abs_det_jac {| lambda_1 := [Fin a]; lambda_2 := [Fin 1];
                          tol_lambda_1 := tol |} [Fin 3]
       = Some [Fin (- ln (3 + 1))]).
Proof. apply (log_abs_det_jac_branches_agree 1 3 (1 / 1000)); lra. Defined.

Lemma exp_continuous_at (y eps : R) :
  0 < eps ->
  exists eta, 0 < eta /\
    forall u, Rabs (u - y) < eta -> Rabs (exp u - exp y) < eps.
Proof.
  intros Heps.
  destruct (derivable_continuous_pt exp y (derivable_pt_exp y) eps Heps)
    as (eta & Heta & Hc).
  exists eta. split; [lra|].
  intros u Hu. destruct (Req_dec_T u y) as [->|Hne].
  - replace (exp y - exp y) with 0 by lra. rewrite Rabs_R0. exact Heps.
  - apply (Hc u). split.
    + split; [exact I | intros E; apply Hne; symmetry; exact E].
    + exact Hu.
Qed.

(** [log(y*a + 1)/a] tends to [y] when [a] tends to zero. *)
Lemma log_derivative_at_zero (y : R) :
  derivable_pt_lim (fun a => ln (y * a + 1)) 0 y.
Proof.
  assert (derivable_pt_lim (fun a => y * a + 1) 0 y) as D1.
  { pose proof (derivable_pt_lim_plus (mult_real_fct y id) (fct_cte 1) 0
                  (y * 1) 0
                  (derivable_pt_lim_scal id y 0 1 (derivable_pt_lim_id 0))
                  (derivable_pt_lim_const 1 0)) as D.
    replace (y * 1 + 0) with y in D by lra. exact D. }
  assert (0 < y * 0 + 1) as H1 by lra.
  pose proof (derivable_pt_lim_comp (fun a => y * a + 1) ln 0 y
                (/ (y * 0 + 1)) D1 (derivable_pt_lim_ln (y * 0 + 1) H1)) as D.
  replace (/ (y * 0 + 1) * y) with y in D.
  - exact D.
  - replace (y * 0 + 1) with 1 by lra. rewrite Rinv_1. lra.
Qed.

Lemma near_zero_in_domain (y a : R) :
  Rabs a < / (Rabs y + 1) -> 0 < y * a + 1.
Proof.
  intros Ha. pose proof (Rabs_pos y) as Hy. pose proof (Rabs_pos a) as Hp.
  assert (0 < / (Rabs y + 1)) as Hi by (apply Rinv_0_lt_compat; lra).
  assert (/ (Rabs y + 1) * (Rabs y + 1) = 1) as E by (field; lra).
  assert (Rabs (y * a) < 1) as Hb by (rewrite Rabs_mult; nra).
  apply Rabs_def2 in Hb. lra.
Qed.

(** X12. Inverse map, agreement of the branches: for every real [y] and
    every [eps > 0] there is a [delta > 0] such that, for every
    [lambda_1 <> 0] with [|lambda_1| < delta] on the power branch,
    [f_inv(y)] is a real number within [eps] of [exp(y) - lambda_2], the
    value of the log branch; the clamp is not active there. *)
Theorem f_inv_branches_agree (b y eps : R) :
  0 < eps ->
  exists delta, 0 < delta /\
    forall a tol,
      a <> 0 -> Rabs a < delta ->
      (tol <= Rabs a ->
       exists r,
         f_inv {| lambda_1 := [Fin a]; lambda_2 := [Fin b];
                  tol_lambda_1 := tol |} [Fin y] = Some [Fin r] /\
         Rabs (r - (exp y - b)) < eps) /\
      (Rabs a < tol ->
       f_inv {| lambda_1 := [Fin a]; lambda_2 := [Fin b];
                tol_lambda_1 := tol |} [Fin y] = Some [Fin (exp y - b)]).
Proof.
  intros Heps.
  destruct (exp_continuous_at y eps Heps) as (eta & Heta & Hc).
  destruct (log_derivative_at_zero y eta Heta) as [d1 Hd1].
  assert (0 < / (Rabs y + 1)) as Hi.
  { apply Rinv_0_lt_compat. pose proof (Rabs_pos y). lra. }
  exists (Rmin d1 (/ (Rabs y + 1))).
  split; [apply Rmin_pos; [apply cond_pos | exact Hi]|].
  intros a tol Ha Hlt. split.
  - intros Ht.
    assert (0 < y * a + 1) as Hdom.
    { apply near_zero_in_domain.
      eapply Rlt_le_trans; [exact Hlt | apply Rmin_r]. }
    exists (Rpower (y * a + 1) (1 / a) - b). split.
    + rewrite f_inv_singleton, inverse_power by assumption. reflexivity.
    + replace (Rpower (y * a + 1) (1 / a) - b - (exp y - b))
        with (Rpower (y * a + 1) (1 / a) - exp y) by lra.
      unfold Rpower. apply Hc.
      assert (Rabs a < d1) as Hlt1
        by (eapply Rlt_le_trans; [exact Hlt | apply Rmin_l]).
      specialize (Hd1 a Ha Hlt1).
      replace (1 / a * ln (y * a + 1) - y)
        with ((ln (y * (0 + a) + 1) - ln (y * 0 + 1)) / a - y);
        [exact Hd1|].
      replace (y * 0 + 1) with 1 by lra. rewrite ln_1, Rplus_0_l.
      field. exact Ha.
  - intros Ht. rewrite f_inv_singleton, inverse_log by assumption.
    reflexivity.
Qed.

Lemma f_inv_branches_agree_witness :
  exists delta, 0 < delta /\
    forall a tol,
      a <> 0 -> Rabs a < delta ->
      (tol <= Rabs a ->
       exists r,
         f_inv {| lambda_1 := [Fin a]; lambda_2 := [Fin 1];
                  tol_lambda_1 := tol |} [Fin 3] = Some [Fin r] /\
         Rabs (r - (exp 3 - 1)) < 1 / 1000) /\
      (Rabs a < tol ->
       f_inv {| lambda_1 := [Fin a]; lambda_2 := [Fin 1];
                tol_lambda_1 := tol |} [Fin 3] = Some [Fin (exp 3 - 1)]).
Proof. apply (f_inv_branches_agree 1 3 (1 / 1000)). lra. Defined.

(** ** From the parameter output to the transformation *)

Lemma learned_lambda_2 (O : BoxCoxTransformOutput) (raw_1 : tensor)
    (raw_2 : list R) :
  fix_lambda_2 O = false ->
  domain_map O (raw_1, reals raw_2)
  = Some (raw_1, reals ((fun x => ln (1 + exp x) - lb_obs O) <$> raw_2)).
Proof.
  intros Hfix. unfold domain_map. rewrite Hfix, scaled_ones.
  unfold softplus. rewrite length_reals, sub_constant. reflexivity.
Qed.

Lemma fixed_lambda_2 (O : BoxCoxTransformOutput) (raw_1 raw_2 : tensor) :
  fix_lambda_2 O = true ->
  domain_map O (raw_1, raw_2)
  = Some (raw_1, reals (replicate (length raw_2) (lb_obs O))).
Proof.
  intros Hfix. unfold domain_map. rewrite Hfix, scaled_ones.
  unfold reals. rewrite fmap_replicate. reflexivity.
Qed.

Lemma forward_finite (tol a b z : R) :
  0 < z + b -> (tol <= Rabs a -> a <> 0) ->
  is_finite (forward_elem tol (Fin a) (Fin b) (Fin z)).
Proof.
  intros Hz Hne.
  destruct (forward_in_inverse_domain tol a b z Hz Hne) as (r & -> & _).
  exists r. reflexivity.
Qed.

Lemma forward_log_outside (tol a b z : R) :
  z + b <= 0 -> Rabs a < tol ->
  ~ is_finite (forward_elem tol (Fin a) (Fin b) (Fin z)).
Proof.
  intros Hz Ht. unfold forward_elem. rewrite abs_ge_false by exact Ht.
  simpl. real_cases; intros [r Hr]; discriminate.
Qed.

(** X13. Learned [lambda_2] into the forward map: with
    [fix_lambda_2 = False], whatever the real raw tensors are, the
    [lambda_2] that [domain_map] returns makes [f] succeed on real inputs of
    the same shape, and every element with [observation > lb_obs] (and
    [lambda_1 <> 0] if it is on the power branch) is a real number. *)
Theorem learned_lambda_2_feeds_f (O : BoxCoxTransformOutput) (tol : R)
    (l1s raw_2 zs : list R) :
  fix_lambda_2 O = false ->
  length l1s = length zs -> length raw_2 = length zs ->
  exists l2 out,
    domain_map O (reals l1s, reals raw_2) = Some (reals l1s, l2) /\
    f {| lambda_1 := reals l1s; lambda_2 := l2; tol_lambda_1 := tol |}
      (reals zs) = Some out /\
    length out = length zs /\
    forall i v z a,
      out !! i = Some v -> zs !! i = Some z -> l1s !! i = Some a ->
      lb_obs O < z -> (tol <= Rabs a -> a <> 0) -> is_finite v.
Proof.
  intros Hfix L1 L2.
  set (l2s := (fun x => ln (1 + exp x) - lb_obs O) <$> raw_2).
  assert (length l2s = length zs) as L2'
    by (unfold l2s; rewrite length_fmap; exact L2).
  destruct (forward_params tol l1s l2s (reals zs))
    as (out & Ho & Lo & E); rewrite ?length_reals; try assumption.
  rewrite length_reals in Lo.
  exists (reals l2s), out.
  split; [apply learned_lambda_2; exact Hfix|].
  split; [exact Ho|]. split; [exact Lo|].
  intros i v z a Hv Ez Ea Hz Hne.
  assert (i < length zs)%nat as Hi by (eapply lookup_lt_Some; exact Ez).
  destruct (lookup_lt_is_Some_2 raw_2 i) as [x Ex]; [lia|].
  assert (l2s !! i = Some (ln (1 + exp x) - lb_obs O)) as Eb.
  { unfold l2s. rewrite list_lookup_fmap, Ex. reflexivity. }
  rewrite (E i (Fin z) a (ln (1 + exp x) - lb_obs O)) in Hv;
    [| rewrite lookup_reals, Ez; reflexivity | exact Ea | exact Eb].
  injection Hv as <-.
  apply forward_finite; [|exact Hne].
  pose proof (softplus_positive x). lra.
Qed.

Lemma learned_lambda_2_feeds_f_witness :
  exists l2 out,
    domain_map {| lb_obs := 5; fix_lambda_2 := false |}
      (reals [2; 0], reals [-100; 100])
    = Some (reals [2; 0], l2) /\
    f {| lambda_1 := reals [2; 0]; lambda_2 := l2;
         tol_lambda_1 := default_tol |} (reals [6; 7]) = Some out /\
    length out = 2%nat /\
    forall i v z a,
      out !! i = Some v -> [6; 7] !! i = Some z -> [2; 0] !! i = Some a ->
      5 < z -> (default_tol <= Rabs a -> a <> 0) -> is_finite v.
Proof.
  apply (learned_lambda_2_feeds_f {| lb_obs := 5; fix_lambda_2 := false |}
           default_tol [2; 0] [-100; 100] [6; 7]); reflexivity.
Defined.

(** X14. Fixed [lambda_2] into the forward map: with [fix_lambda_2 = True]
    the returned [lambda_2] is [+lb_obs], so [f] is real where
    [observation > -lb_obs] (and [lambda_1 <> 0] on the power branch), and
    on the log branch it is not a real number where
    [observation <= -lb_obs].  The bound on the observations is [-lb_obs]
    here, not [lb_obs] as with a learned [lambda_2]. *)
Theorem fixed_lambda_2_feeds_f (O : BoxCoxTransformOutput) (tol : R)
    (l1s zs : list R) (raw_2 : tensor) :
  fix_lambda_2 O = true ->
  length l1s = length zs -> length raw_2 = length zs ->
  exists l2 out,
    domain_map O (reals l1s, raw_2) = Some (reals l1s, l2) /\
    f {| lambda_1 := reals l1s; lambda_2 := l2; tol_lambda_1 := tol |}
      (reals zs) = Some out /\
    length out = length zs /\
    forall i v z a,
      out !! i = Some v -> zs !! i = Some z -> l1s !! i = Some a ->
      (- lb_obs O < z -> (tol <= Rabs a -> a <> 0) -> is_finite v) /\
      (z <= - lb_obs O -> Rabs a < tol -> ~ is_finite v).
Proof.
  intros Hfix L1 L2.
  set (l2s := replicate (length raw_2) (lb_obs O)).
  assert (length l2s = length zs) as L2'
    by (unfold l2s; rewrite length_replicate; exact L2).
  destruct (forward_params tol l1s l2s (reals zs))
    as (out & Ho & Lo & E); rewrite ?length_reals; try assumption.
  rewrite length_reals in Lo.
  exists (reals l2s), out.
  split; [apply fixed_lambda_2; exact Hfix|].
  split; [exact Ho|]. split; [exact Lo|].
  intros i v z a Hv Ez Ea.
  assert (i < length zs)%nat as Hi by (eapply lookup_lt_Some; exact Ez).
  assert (l2s !! i = Some (lb_obs O)) as Eb.
  { unfold l2s. apply lookup_replicate_2. lia. }
  rewrite (E i (Fin z) a (lb_obs O)) in Hv;
    [| rewrite lookup_reals, Ez; reflexivity | exact Ea | exact Eb].
  injection Hv as <-. split.
  - intros Hz Hne. apply forward_finite; [lra | exact Hne].
  - intros Hz Ht. apply forward_log_outside; [lra | exact Ht].
Qed.

Lemma fixed_lambda_2_feeds_f_witness :
  exists l2 out,
    domain_map {| lb_obs := -5; fix_lambda_2 := true |}
      (reals [2; 0], [NaN; PInf])
    = Some (reals [2; 0], l2) /\
    f {| lambda_1 := reals [2; 0]; lambda_2 := l2;
         tol_lambda_1 := default_tol |} (reals [6; 0]) = Some out /\
    length out = 2%nat /\
    forall i v z a,
      out !! i = Some v -> [6; 0] !! i = Some z -> [2; 0] !! i = Some a ->
      (- -5 < z -> (default_tol <= Rabs a -> a <> 0) -> is_finite v) /\
      (z <= - -5 -> Rabs a < default_tol -> ~ is_finite v).
Proof.
  apply (fixed_lambda_2_feeds_f {| lb_obs := -5; fix_lambda_2 := true |}
           default_tol [2; 0] [6; 0] [NaN; PInf]); reflexivity.
Defined.

(** ** Elements do not interact *)

Lemma length_elementwise g (l1 l2 z : tensor) :
  length l1 = length z -> length l2 = length z ->
  length (elementwise g l1 l2 z) = length z.
Proof.
  intros L1 L2. unfold elementwise.
  rewrite length_zip_with, length_zip. lia.
Qed.

Lemma lookup_elementwise g (l1 l2 z : tensor) i zi a b :
  z !! i = Some zi -> l1 !! i = Some a -> l2 !! i = Some b ->
  elementwise g l1 l2 z !! i = Some (g a b zi).
Proof.
  intros Hz Ha Hb. unfold elementwise.
  rewrite lookup_zip_with.
  assert (zip l1 l2 !! i = Some (a, b)) as ->.
  { rewrite (lookup_zip_with pair l1 l2 i), Ha. simpl. rewrite Hb.
    reflexivity. }
  simpl. rewrite Hz. reflexivity.
Qed.

Lemma elementwise_app g (l1 l2 z l1' l2' z' : tensor) :
  length l1 = length z -> length l2 = length z ->
  elementwise g (l1 ++ l1') (l2 ++ l2') (z ++ z')
  = elementwise g l1 l2 z ++ elementwise g l1' l2' z'.
Proof.
  intros L1 L2. unfold elementwise.
  rewrite (zip_with_app pair l1 l1' l2 l2') by lia.
  apply zip_with_app. rewrite length_zip_with. lia.
Qed.

Section SameShape.

Variable T : BoxCoxTranform.
Variable z : tensor.
Hypothesis L1 : length (lambda_1 T) = length z.
Hypothesis L2 : length (lambda_2 T) = length z.

Lemma f_elementwise :
  f T z = Some (elementwise (forward_elem (tol_lambda_1 T))
                  (lambda_1 T) (lambda_2 T) z).
Proof.
  apply forward_eq; try assumption.
  - apply length_elementwise; assumption.
  - intros. apply lookup_elementwise; assumption.
Qed.

Lemma f_inv_elementwise :
  f_inv T z = Some (elementwise (inverse_elem (tol_lambda_1 T))
                      (lambda_1 T) (lambda_2 T) z).
Proof.
  apply inverse_eq; try assumption.
  - apply length_elementwise; assumption.
  - intros. apply lookup_elementwise; assumption.
Qed.

Lemma log_abs_det_jac_elementwise :
  log_abs_det_jac T z
  = Some (elementwise (jacobian_elem (tol_lambda_1 T))
            (lambda_1 T) (lambda_2 T) z).
Proof.
  apply jacobian_eq; try assumption.
  - apply length_elementwise; assumption.
  - intros. apply lookup_elementwise; assumption.
Qed.

End SameShape.

(** X15. Elements do not interact: for parameters of the shape of the
    input, each of [f], [f_inv] and [log_abs_det_jac] on two batches put end
    to end is the two results put end to end. *)
Theorem batches_concatenate (tol : R) (l1 l2 z l1' l2' z' : tensor) :
  length l1 = length z -> length l2 = length z ->
  length l1' = length z' -> length l2' = length z' ->
  let T := {| lambda_1 := l1; lambda_2 := l2; tol_lambda_1 := tol |} in
  let T' := {| lambda_1 := l1'; lambda_2 := l2'; tol_lambda_1 := tol |} in
  let TT := {| lambda_1 := l1 ++ l1'; lambda_2 := l2 ++ l2';
               tol_lambda_1 := tol |} in
  (exists o o', f T z = Some o /\ f T' z' = Some o' /\
                f TT (z ++ z') = Some (o ++ o')) /\
  (exists o o', f_inv T z = Some o /\ f_inv T' z' = Some o' /\
                f_inv TT (z ++ z') = Some (o ++ o')) /\
  (exists o o', log_abs_det_jac T z = Some o /\
                log_abs_det_jac T' z' = Some o' /\
                log_abs_det_jac TT (z ++ z') = Some (o ++ o')).
Proof.
  intros L1 L2 L1' L2' T T' TT.
  assert (length (lambda_1 TT) = length (z ++ z')) as LL1
    by (simpl; rewrite !length_app; lia).
  assert (length (lambda_2 TT) = length (z ++ z')) as LL2
    by (simpl; rewrite !length_app; lia).
  repeat split.
  - do 2 eexists.
    split; [apply (f_elementwise T z L1 L2)|].
    split; [apply (f_elementwise T' z' L1' L2')|].
    rewrite (f_elementwise TT (z ++ z') LL1 LL2). simpl.
    rewrite elementwise_app by assumption. reflexivity.
  - do 2 eexists.
    split; [apply (f_inv_elementwise T z L1 L2)|].
    split; [apply (f_inv_elementwise T' z' L1' L2')|].
    rewrite (f_inv_elementwise TT (z ++ z') LL1 LL2). simpl.
    rewrite elementwise_app by assumption. reflexivity.
  - do 2 eexists.
    split; [apply (log_abs_det_jac_elementwise T z L1 L2)|].
    split; [apply (log_abs_det_jac_elementwise T' z' L1' L2')|].
    rewrite (log_abs_det_jac_elementwise TT (z ++ z') LL1 LL2). simpl.
    rewrite elementwise_app by assumption. reflexivity.
Qed.

Lemma batches_concatenate_witness :
  let T := {| lambda_1 := [Fin 2]; lambda_2 := [Fin 1];
              tol_lambda_1 := default_tol |} in
  let T' := {| lambda_1 := [Fin 0; NaN]; lambda_2 := [Fin 1; Fin 1];
               tol_lambda_1 := default_tol |} in
  let TT := {| lambda_1 := [Fin 2] ++ [Fin 0; NaN];
               lambda_2 := [Fin 1] ++ [Fin 1; Fin 1];
               tol_lambda_1 := default_tol |} in
  (exists o o', f T [Fin 3] = Some o /\ f T' [Fin 4; PInf] = Some o' /\
                f TT ([Fin 3] ++ [Fin 4; PInf]) = Some (o ++ o')) /\
  (exists o o', f_inv T [Fin 3] = Some o /\
                f_inv T' [Fin 4; PInf] = Some o' /\
                f_inv TT ([Fin 3] ++ [Fin 4; PInf]) = Some (o ++ o')) /\
  (exists o o', log_abs_det_jac T [Fin 3] = Some o /\
                log_abs_det_jac T' [Fin 4; PInf] = Some o' /\
                log_abs_det_jac TT ([Fin 3] ++ [Fin 4; PInf])
                = Some (o ++ o')).
Proof.
  apply (batches_concatenate default_tol [Fin 2] [Fin 1] [Fin 3]
           [Fin 0; NaN] [Fin 1; Fin 1] [Fin 4; PInf]); reflexivity.
Defined.

(** X16. Broadcasting a parameter is repeating it: [f] with one-element
    [lambda_1] and [lambda_2] gives, on every input, what it gives with the
    two elements repeated to the shape of the input. *)
Theorem f_scalar_parameters (tol : R) (a b : num) (z : tensor) :
  f {| lambda_1 := [a]; lambda_2 := [b]; tol_lambda_1 := tol |} z
  = f {| lambda_1 := replicate (length z) a;
         lambda_2 := replicate (length z) b; tol_lambda_1 := tol |} z.
Proof.
  destruct (forward_lookup
              {| lambda_1 := [a]; lambda_2 := [b]; tol_lambda_1 := tol |} z)
    as (out & Ho & Lo & E); [right; reflexivity | right; reflexivity |].
  rewrite Ho. symmetry.
  apply forward_eq; simpl; rewrite ?length_replicate; try reflexivity;
    [exact Lo|].
  intros i zi a' b' Hz Ha Hb.
  apply lookup_replicate in Ha as [-> _].
  apply lookup_replicate in Hb as [-> _].
  apply E; [exact Hz | reflexivity | reflexivity].
Qed.

(** ** The Jacobian and the inverse *)

Lemma inverse_power_derivative (a b y0 : R) :
  a <> 0 -> 0 < y0 * a + 1 ->
  derivable_pt_lim (fun y => Rpower (y * a + 1) (1 / a) - b) y0
    (Rpower (y0 * a + 1) (1 / a - 1)).
Proof.
  intros Ha Hy.
  assert (derivable_pt_lim (fun y => y * a + 1) y0 a) as D1.
  { pose proof (derivable_pt_lim_plus (fun y => id y * a) (fct_cte 1) y0
                  (1 * a) 0
                  (derivable_pt_lim_scal_right id y0 1 a
                     (derivable_pt_lim_id y0))
                  (derivable_pt_lim_const 1 y0)) as D.
    replace (1 * a + 0) with a in D by lra. exact D. }
  pose proof (derivable_pt_lim_comp (fun y => y * a + 1)
                (fun x => Rpower x (1 / a)) y0 a _ D1
                (derivable_pt_lim_power (y0 * a + 1) (1 / a) Hy)) as D2.
  pose proof (derivable_pt_lim_minus _ (fct_cte b) y0 _ 0 D2
                (derivable_pt_lim_const b y0)) as D.
  replace (1 / a * Rpower (y0 * a + 1) (1 / a - 1) * a - 0)
    with (Rpower (y0 * a + 1) (1 / a - 1)) in D by (field; exact Ha).
  exact D.
Qed.

Lemma inverse_near (a y0 y : R) :
  a <> 0 -> 0 < y0 * a + 1 ->
  Rabs (y - y0) < (y0 * a + 1) / Rabs a -> 0 < y * a + 1.
Proof.
  intros Ha Hy Hn.
  assert (0 < Rabs a) as Hp by (apply Rabs_pos_lt; exact Ha).
  assert (Rabs ((y - y0) * a) < y0 * a + 1) as Hb.
  { rewrite Rabs_mult.
    apply (Rmult_lt_compat_r (Rabs a)) in Hn; [|exact Hp].
    replace ((y0 * a + 1) / Rabs a * Rabs a) with (y0 * a + 1) in Hn
      by (field; lra).
    exact Hn. }
  apply Rabs_def2 in Hb. lra.
Qed.

(** The Jacobian term at [z] is minus the logarithm of the derivative of
    the inverse map at [f(z)]. *)
Lemma jacobian_of_inverse (tol a b z : R) :
  0 < z + b -> (tol <= Rabs a -> a <> 0) ->
  exists y d,
    forward_elem tol (Fin a) (Fin b) (Fin z) = Fin y /\
    derivative_at (inverse_elem tol (Fin a) (Fin b)) y d /\ 0 < d /\
    jacobian_elem tol (Fin a) (Fin b) (Fin z) = Fin (- ln d).
Proof.
  intros Hz Hne. destruct (abs_ge_cases a tol) as [[Ht _]|[Ht _]].
  - specialize (Hne Ht).
    set (y0 := (Rpower (z + b) a - 1) / a).
    assert (y0 * a + 1 = Rpower (z + b) a) as E
      by (unfold y0; field; exact Hne).
    assert (0 < y0 * a + 1) as Hy
      by (rewrite E; unfold Rpower; apply exp_pos).
    assert (0 < Rabs a) as Hp by (apply Rabs_pos_lt; exact Hne).
    exists y0, (Rpower (y0 * a + 1) (1 / a - 1)).
    split; [apply forward_power; assumption|].
    split; [|split].
    + exists (fun y => Rpower (y * a + 1) (1 / a) - b). split.
      * exists ((y0 * a + 1) / Rabs a).
        split; [apply Rdiv_lt_0_compat; assumption|].
        intros y Hn. apply inverse_power; [|exact Ht|exact Hne].
        apply (inverse_near a y0); assumption.
      * apply inverse_power_derivative; assumption.
    + unfold Rpower. apply exp_pos.
    + rewrite jacobian_power by assumption. f_equal.
      rewrite ln_Rpower, E, ln_Rpower. field. exact Hne.
  - exists (ln (z + b)), (z + b).
    split; [apply forward_log; assumption|].
    split; [|split; [exact Hz|]].
    + exists (fun y => exp y - b). split.
      * exists 1. split; [lra|]. intros y _. apply inverse_log. exact Ht.
      * pose proof (derivable_pt_lim_minus exp (fct_cte b) (ln (z + b))
                      _ 0 (derivable_pt_lim_exp (ln (z + b)))
                      (derivable_pt_lim_const b (ln (z + b)))) as D.
        rewrite exp_ln, Rminus_0_r in D by exact Hz. exact D.
    + apply jacobian_log; assumption.
Qed.

(** X17. The Jacobian term against the inverse: for real tensors of one
    shape with [z + lambda_2 > 0] at every element and [lambda_1 <> 0]
    wherever the power branch is taken, [f_inv] is real-valued around each
    element [y] of [f(z)] and has a positive derivative [d] there, and the
    element of [log_abs_det_jac(z)] is [-log d]: the log-Jacobian of the
    inverse at [f(z)] is minus the log-Jacobian of the forward map at
    [z]. *)
Theorem log_abs_det_jac_of_inverse (tol : R) (l1s l2s zs : list R) :
  length l1s = length zs -> length l2s = length zs ->
  (forall i z a b,
      zs !! i = Some z -> l1s !! i = Some a -> l2s !! i = Some b ->
      0 < z + b /\ (tol <= Rabs a -> a <> 0)) ->
  let T := {| lambda_1 := reals l1s; lambda_2 := reals l2s;
              tol_lambda_1 := tol |} in
  exists out jac,
    f T (reals zs) = Some out /\
    log_abs_det_jac T (reals zs) = Some jac /\
    forall i a b,
      (i < length zs)%nat -> l1s !! i = Some a -> l2s !! i = Some b ->
      exists y d,
        out !! i = Some (Fin y) /\
        derivative_at (inverse_elem tol (Fin a) (Fin b)) y d /\ 0 < d /\
        jac !! i = Some (Fin (- ln d)).
Proof.
  intros L1 L2 H T.
  destruct (forward_params tol l1s l2s (reals zs))
    as (out & Ho & Lo & Eo); rewrite ?length_reals; try assumption.
  destruct (jacobian_params tol l1s l2s (reals zs))
    as (jac & Hj & Lj & Ej); rewrite ?length_reals; try assumption.
  exists out, jac. split; [exact Ho|]. split; [exact Hj|].
  intros i a b Hi Ea Eb.
  destruct (lookup_lt_is_Some_2 zs i Hi) as [z Ez].
  destruct (H i z a b Ez Ea Eb) as [Hz Hne].
  destruct (jacobian_of_inverse tol a b z Hz Hne)
    as (y & d & Ef & D & Hd & Ed).
  exists y, d. repeat split; try assumption.
  - rewrite <- Ef. apply Eo; try assumption.
    rewrite lookup_reals, Ez. reflexivity.
  - rewrite <- Ed. apply Ej; try assumption.
    rewrite lookup_reals, Ez. reflexivity.
Qed.

Lemma log_abs_det_jac_of_inverse_witness :
  let T := {| lambda_1 := reals [2; 0]; lambda_2 := reals [1; 1];
              tol_lambda_1 := default_tol |} in
  exists out jac,
    f T (reals [3; 4]) = Some out /\
    log_abs_det_jac T (reals [3; 4]) = Some jac /\
    forall i a b,
      (i < 2)%nat -> [2; 0] !! i = Some a -> [1; 1] !! i = Some b ->
      exists y d,
        out !! i = Some (Fin y) /\
        derivative_at (inverse_elem default_tol (Fin a) (Fin b)) y d /\
        0 < d /\
        jac !! i = Some (Fin (- ln d)).
Proof.
  apply (log_abs_det_jac_of_inverse default_tol [2; 0] [1; 1] [3; 4]);
    try reflexivity.
  intros [|[|i]] z a b Hz Ha Hb; simpl in Hz, Ha, Hb; try discriminate;
    injection Hz as <-; injection Ha as <-; injection Hb as <-.
  - split; [lra | intros _; lra].
  - split; [lra|]. unfold default_tol. rewrite Rabs_R0. intros Ht. lra.
Defined.
